(** * AI Council consultation script: a shallow embedding of
      [plugins/ai-council/scripts/consult.py] and the properties of its
      orchestration engine.

    Modelling conventions.
    - A Python [str] is a [string]; a character stands for one code point
      below 256.  [int] is [Z].
    - A Python [dict] is an association list in insertion order: assigning to
      an existing key keeps the key's position, assigning to a new key appends.
    - Everything the script obtains from the operating system (the outcome of
      [subprocess.run], of [urllib.request.urlopen], the environment
      variables, [sys.platform]) is read from an [Env] record.
    - Process spawns and HTTP requests are logged in a trace carried by a small
      writer monad, so that "nothing was invoked" is a statement about data.
    - The order in which [as_completed] yields the futures of a round is given
      by an insertion code; every code denotes a permutation and every
      permutation has a code.
    - Console output is kept apart from the engine: the lines printed for a
      round and by [main] are functions of the results. *)

From Stdlib Require Import ZArith List Bool Lia Permutation.
From Stdlib Require Import Strings.String Strings.Ascii Numbers.DecimalString.
Import ListNotations.

Open Scope string_scope.
Open Scope Z_scope.

(* ------------------------------------------------------------------------- *)
(** ** Python strings *)

Module PyStr.

(** The one-character string ["\n"]. *)
Definition nl : string := String "010"%char EmptyString.

(** Truth value of a string: [bool(s)]. *)
Definition truthy (s : string) : bool :=
  match s with
  | EmptyString => false
  | String _ _ => true
  end.

(** [str.isspace] on the code points below 256. *)
Definition isspace (c : ascii) : bool :=
  let n := nat_of_ascii c in
  ((9 <=? n)%nat && (n <=? 13)%nat)
  || ((28 <=? n)%nat && (n <=? 32)%nat)
  || (n =? 133)%nat
  || (n =? 160)%nat.

Fixpoint lstrip (s : string) : string :=
  match s with
  | EmptyString => EmptyString
  | String c s' => if isspace c then lstrip s' else s
  end.

Fixpoint rstrip (s : string) : string :=
  match s with
  | EmptyString => EmptyString
  | String c s' =>
      match rstrip s' with
      | EmptyString => if isspace c then EmptyString else String c EmptyString
      | r => String c r
      end
  end.

(** [s.strip()]. *)
Definition strip (s : string) : string := rstrip (lstrip s).

(** [str(n)] and [f"{n}"] for an [int]. *)
Definition of_int (n : Z) : string := NilZero.string_of_int (Z.to_int n).

(** [sep.join(parts)]. *)
Definition join (sep : string) (parts : list string) : string :=
  String.concat sep parts.

(** [needle in hay], as a proposition and as a test. *)
Definition Substring (needle hay : string) : Prop :=
  exists pre post, hay = pre ++ needle ++ post.

Fixpoint contains (needle hay : string) : bool :=
  String.prefix needle hay
  || match hay with
     | EmptyString => false
     | String _ hay' => contains needle hay'
     end.

End PyStr.

(* ------------------------------------------------------------------------- *)
(** ** Python dictionaries with string keys *)

Module PyDict.

Definition dict (V : Type) : Type := list (string * V).

Section Ops.
Context {V : Type}.

Definition keys (d : dict V) : list string := map fst d.

Fixpoint get (k : string) (d : dict V) : option V :=
  match d with
  | [] => None
  | (k', v) :: d' => if String.eqb k k' then Some v else get k d'
  end.

(** [d[k] = v]. *)
Fixpoint set (k : string) (v : V) (d : dict V) : dict V :=
  match d with
  | [] => [(k, v)]
  | (k', v') :: d' =>
      if String.eqb k k' then (k', v) :: d' else (k', v') :: set k v d'
  end.

Definition mem (k : string) (d : dict V) : bool :=
  match get k d with
  | Some _ => true
  | None => false
  end.
End Ops.

End PyDict.

Import PyStr PyDict.

(** [k in l] for a list of strings. *)
Definition in_list (k : string) (l : list string) : bool :=
  existsb (String.eqb k) l.

(* ------------------------------------------------------------------------- *)
(** ** The operating system as seen by the script *)

(** What [subprocess.run(cmd, capture_output=True, timeout=t)] does. *)
Inductive RunOutcome : Type :=
| Completed (returncode : Z) (stdout stderr : string)
| RunTimeoutExpired
| RunRaised (msg : string).   (* any other exception [e], with [str(e)] *)

(** What opening the request, reading the body, decoding it as JSON and
    evaluating [result.get("output", str(result))] does.  [UrlURLError] carries
    [str(e.reason)]; a timeout while connecting is raised by [urllib] as such a
    [URLError], a timeout while the response is awaited or read as
    [TimeoutError]. *)
Inductive UrlOutcome : Type :=
| Responded (output : option string) (whole : string)
| UrlHTTPError (code : Z) (reason : string)
| UrlURLError (reason : string)
| UrlTimeoutError
| UrlRaised (msg : string).   (* any other exception [e], with [str(e)] *)

Record Env : Type := {
  platform : string;
  getenv : string -> option string;
  subprocess_run : list string -> option Z -> RunOutcome;
  urlopen : string -> string -> string -> Z -> UrlOutcome
    (* url, bearer token, "input" field of the body, timeout *)
}.

(** Observable invocation attempts. *)
Inductive Event : Type :=
| Spawn (cmd : list string) (timeout : option Z)
| HttpPost (url : string) (input : string) (timeout : Z).

(** Exceptions that leave a function of the script. *)
Inductive PyExc : Type :=
| CalledProcessError (returncode : Z)
| TimeoutExpired
| OtherError (msg : string).

Inductive result (A : Type) : Type :=
| Return (a : A)
| Raise (e : PyExc).
Arguments Return {A} a.
Arguments Raise {A} e.

(** *** The trace monad *)

Definition M (A : Type) : Type := list Event * A.

Definition ret {A} (a : A) : M A := ([], a).

Definition bind {A B} (m : M A) (f : A -> M B) : M B :=
  let '(t1, a) := m in
  let '(t2, b) := f a in
  ((t1 ++ t2)%list, b).

Definition tell (e : Event) : M unit := ([e], tt).

Definition trace {A} (m : M A) : list Event := fst m.
Definition value {A} (m : M A) : A := snd m.

Notation "x <- c1 ;; c2" := (bind c1 (fun x => c2))
  (at level 61, c1 at next level, right associativity).
Notation "c1 ;;; c2" := (bind c1 (fun _ => c2))
  (at level 61, right associativity).

(* ------------------------------------------------------------------------- *)
(** ** Agents and the readiness probes *)

Record AIAgent : Type := {
  name : string;
  command : list string;
  available : bool;
  is_api : bool
}.

(** [subprocess.run(cmd, capture_output=True, check=True)]: a non-zero exit
    status becomes [CalledProcessError]. *)
Definition run_checked (env : Env) (cmd : list string) : result unit :=
  match subprocess_run env cmd None with
  | Completed rc _ _ =>
      if rc =? 0 then Return tt else Raise (CalledProcessError rc)
  | RunTimeoutExpired => Raise TimeoutExpired
  | RunRaised msg => Raise (OtherError msg)
  end.

Definition check_cli_available (env : Env) (command : string) : result bool :=
  match run_checked env
          [if String.eqb (platform env) "win32" then "where" else "which";
           command] with
  | Return _ => Return true
  | Raise (CalledProcessError _) => Return false
  | Raise e => Raise e
  end.

Definition check_perplexity_available (env : Env) : bool :=
  match getenv env "PERPLEXITY_API_KEY" with
  | Some k => truthy k
  | None => false
  end.

(** The triple [(agent_name, response, error)]. *)
Definition Reply : Type := string * string * option string.

Definition query_perplexity_api (env : Env) (prompt : string) (timeout : Z)
  : M Reply :=
  match getenv env "PERPLEXITY_API_KEY" with
  | None | Some EmptyString =>
      ret ("Perplexity", "", Some "PERPLEXITY_API_KEY not set")
  | Some api_key =>
      let url := "https://api.perplexity.ai/v1/responses" in
      tell (HttpPost url prompt timeout) ;;;
      match urlopen env url api_key prompt timeout with
      | Responded (Some output) _ => ret ("Perplexity", output, None)
      | Responded None whole => ret ("Perplexity", whole, None)
      | UrlHTTPError code reason =>
          ret ("Perplexity", "",
               Some ("HTTP " ++ of_int code ++ ": " ++ reason))
      | UrlURLError reason =>
          ret ("Perplexity", "", Some ("URL Error: " ++ reason))
      | UrlTimeoutError =>
          ret ("Perplexity", "",
               Some ("Timeout after " ++ of_int timeout ++ "s"))
      | UrlRaised msg => ret ("Perplexity", "", Some msg)
      end
  end.

Definition get_agents (env : Env) : result (dict AIAgent) :=
  match check_cli_available env "claude" with
  | Raise e => Raise e
  | Return claude =>
  match check_cli_available env "gemini" with
  | Raise e => Raise e
  | Return gemini =>
  match check_cli_available env "codex" with
  | Raise e => Raise e
  | Return codex =>
      Return
        [("claude", {| name := "Claude"; command := ["claude"; "-p"];
                       available := claude; is_api := false |});
         ("gemini", {| name := "Gemini"; command := ["gemini"; "-p"];
                       available := gemini; is_api := false |});
         ("codex", {| name := "Codex"; command := ["codex"; "exec"];
                      available := codex; is_api := false |});
         ("perplexity", {| name := "Perplexity"; command := [];
                           available := check_perplexity_available env;
                           is_api := true |})]
  end end end.

Definition query_agent (env : Env) (agent : AIAgent) (prompt : string)
    (timeout : Z) : M Reply :=
  if negb (available agent) then
    if is_api agent then
      ret (name agent, "", Some (name agent ++ " API key not configured"))
    else
      ret (name agent, "", Some (name agent ++ " CLI not available"))
  else if is_api agent then
    if String.eqb (name agent) "Perplexity" then
      query_perplexity_api env prompt timeout
    else
      ret (name agent, "", Some ("Unknown API agent: " ++ name agent))
  else
    let cmd := (command agent ++ [prompt])%list in
    tell (Spawn cmd (Some timeout)) ;;;
    match subprocess_run env cmd (Some timeout) with
    | Completed returncode stdout stderr =>
        let output := strip stdout in
        let output :=
          if negb (returncode =? 0) && truthy stderr
          then output ++ nl ++ "[stderr: " ++ strip stderr ++ "]"
          else output in
        ret (name agent, output, None)
    | RunTimeoutExpired =>
        ret (name agent, "", Some ("Timeout after " ++ of_int timeout ++ "s"))
    | RunRaised msg => ret (name agent, "", Some msg)
    end.

(* ------------------------------------------------------------------------- *)
(** ** Prompt construction *)

(** One labeled block of the formatted transcript. *)
Definition block (agent_name response : string) : string :=
  "--- " ++ agent_name ++ " ---" ++ nl ++ response ++ nl.

Definition format_previous_responses (responses : dict string) : string :=
  let parts :=
    map (fun '(agent_name, response) => block agent_name response)
        (filter (fun '(_, response) => truthy response) responses) in
  join nl parts.

Definition first_round_prompt (question : string) : string :=
  "You are participating in a multi-AI consultation. "
  ++ "Answer the following question thoughtfully and concisely (2-3 paragraphs)."
  ++ nl ++ nl
  ++ "Question: " ++ question.

Definition later_round_head : string :=
  "You are participating in a multi-AI consultation. "
  ++ "Here is the question and responses from the previous round:"
  ++ nl ++ nl ++ "Question: ".

Definition later_round_tail : string :=
  nl ++ nl
  ++ "Consider these perspectives. Do you agree, disagree, or have additional insights? "
  ++ "Be concise (2-3 paragraphs).".

(** The [prompt_template] of one iteration of the round loop. *)
Definition build_prompt (round_num : Z) (question : string)
    (all_responses : dict string) : string :=
  if round_num =? 1 then first_round_prompt question
  else
    let prev_formatted := format_previous_responses all_responses in
    later_round_head ++ question ++ nl ++ nl
    ++ "Previous responses:" ++ nl ++ prev_formatted
    ++ later_round_tail.

(* ------------------------------------------------------------------------- *)
(** ** One round and the round loop *)

Record RoundResult : Type := {
  round : Z;
  responses : dict string;
  errors : dict string
}.

Record ConsultationReport : Type := {
  question : string;
  rounds : list RoundResult;
  participants : list string;
  unavailable : list string
}.

Inductive ConsultationResult : Type :=
| NoAgents (error : string)          (* the dictionary [{"error": ...}] *)
| Report (report : ConsultationReport).

(** Completion order of the futures of a round.  The head of [code] is the
    position at which the first submitted call lands among the later ones. *)
Fixpoint insert_at {A} (n : nat) (x : A) (l : list A) : list A :=
  match n, l with
  | O, _ => x :: l
  | S _, [] => [x]
  | S n', y :: l' => y :: insert_at n' x l'
  end.

Fixpoint as_completed {A} (code : list nat) (futures : list A) : list A :=
  match futures with
  | [] => []
  | f :: rest => insert_at (hd O code) f (as_completed (tl code) rest)
  end.

(** [if error:] on an [Optional[str]]. *)
Definition error_set (error : option string) : option string :=
  match error with
  | Some e => if truthy e then Some e else None
  | None => None
  end.

(** Body of the [for future in as_completed(futures)] loop. *)
Definition record_reply (st : RoundResult * dict string) (reply : Reply)
  : RoundResult * dict string :=
  let '(round_results, all_responses) := st in
  let '(agent_name, response, error) := reply in
  match error_set error with
  | Some e =>
      ({| round := round round_results;
          responses := responses round_results;
          errors := set agent_name e (errors round_results) |},
       all_responses)
  | None =>
      ({| round := round round_results;
          responses := set agent_name response (responses round_results);
          errors := errors round_results |},
       set agent_name response all_responses)
  end.

(** [map] in the trace monad: the calls are issued in submission order. *)
Fixpoint submit_all {A B} (f : A -> M B) (l : list A) : M (list B) :=
  match l with
  | [] => ret []
  | x :: l' => y <- f x ;; ys <- submit_all f l' ;; ret (y :: ys)
  end.

Section Rounds.

(** The system's behaviour at the call made in a given round for a given
    agent key, and the completion order of each round. *)
Variable envs : Z -> string -> Env.
Variable order : Z -> list nat.
Variable question_text : string.
Variable available_agents : dict AIAgent.
Variable timeout : Z.

Definition run_round (round_num : Z) (all_responses : dict string)
  : M (RoundResult * dict string) :=
  let round_results :=
    {| round := round_num; responses := []; errors := [] |} in
  let prompt_template := build_prompt round_num question_text all_responses in
  replies <- submit_all
               (fun '(key, agent) =>
                  query_agent (envs round_num key) agent prompt_template timeout)
               available_agents ;;
  ret (fold_left record_reply (as_completed (order round_num) replies)
         (round_results, all_responses)).

(** The [for round_num in ...] loop; the state is [results["rounds"]] and
    [all_responses]. *)
Fixpoint run_rounds (round_nums : list Z)
    (st : list RoundResult * dict string)
  : M (list RoundResult * dict string) :=
  match round_nums with
  | [] => ret st
  | round_num :: rest =>
      out <- run_round round_num (snd st) ;;
      run_rounds rest ((fst st ++ [fst out])%list, snd out)
  end.

End Rounds.

(** [range(lo, hi)]. *)
Definition range (lo hi : Z) : list Z :=
  map (fun i => lo + Z.of_nat i) (seq 0 (Z.to_nat (hi - lo))).

(** [if selected_agents: agents = {k: v for k, v in agents.items()
    if k in selected_agents}]: [None] and the empty list are both false. *)
Definition filter_selected (agents : dict AIAgent)
    (selected_agents : option (list string)) : dict AIAgent :=
  match selected_agents with
  | Some ((_ :: _) as sel) => filter (fun '(k, _) => in_list k sel) agents
  | _ => agents
  end.

(** [{k: v for k, v in agents.items() if v.available}]. *)
Definition filter_available (agents : dict AIAgent) : dict AIAgent :=
  filter (fun '(_, v) => available v) agents.

Definition run_consultation (envs : Z -> string -> Env) (order : Z -> list nat)
    (question_text : string) (agents : dict AIAgent)
    (selected_agents : option (list string)) (n_rounds : Z) (timeout : Z)
  : M ConsultationResult :=
  let agents := filter_selected agents selected_agents in
  let available_agents := filter_available agents in
  match available_agents with
  | [] => ret (NoAgents "No AI agents available")
  | _ :: _ =>
      st <- run_rounds envs order question_text available_agents timeout
              (range 1 (n_rounds + 1)) ([], []) ;;
      ret (Report
             {| question := question_text;
                rounds := fst st;
                participants := keys available_agents;
                unavailable :=
                  keys (filter (fun '(_, v) => negb (available v)) agents) |})
  end.

(** *** Observations on a run *)

Section Observations.

Variable envs : Z -> string -> Env.
Variable order : Z -> list nat.
Variable question_text : string.
Variable available_agents : dict AIAgent.
Variable timeout : Z.

(** Loop state after the first [n] rounds. *)
Definition state_after (n : nat) : list RoundResult * dict string :=
  value (run_rounds envs order question_text available_agents timeout
           (range 1 (Z.of_nat n + 1)) ([], [])).

(** [all_responses] when round [k] starts. *)
Definition transcript_before (k : nat) : dict string :=
  snd (state_after (pred k)).

Definition transcript_after (k : nat) : dict string :=
  snd (state_after k).

(** The prompt sent in round [k]. *)
Definition prompt_of_round (k : nat) : string :=
  build_prompt (Z.of_nat k) question_text (transcript_before k).

(** The result of round [k]. *)
Definition result_of_round (k : nat) : RoundResult :=
  fst (value (run_round envs order question_text available_agents timeout
                (Z.of_nat k) (transcript_before k))).

(** The replies of round [k] in the order in which they are consumed, when
    the round starts from the transcript [T]. *)
Definition replies_of_round (k : Z) (T : dict string) : list Reply :=
  as_completed (order k)
    (map (fun '(key, agent) =>
            value (query_agent (envs k key) agent
                     (build_prompt k question_text T) timeout))
         available_agents).

(** The text of the most recent Success of the agent named [n] in rounds
    [1..k], read off the round results. *)
Fixpoint latest_success (k : nat) (n : string) : option string :=
  match k with
  | O => None
  | S k' =>
      match get n (responses (result_of_round (S k'))) with
      | Some t => Some t
      | None => latest_success k' n
      end
  end.

(** The labeled blocks that the prompt of round [k] renders. *)
Definition rendered_blocks (k : nat) : dict string :=
  filter (fun '(_, response) => truthy response) (transcript_before k).

End Observations.

(* ------------------------------------------------------------------------- *)
(** ** Vocabulary of the statements *)

(** Display names of the agents of a dictionary, in its order. *)
Definition names (agents : dict AIAgent) : list string :=
  map (fun '(_, a) => name a) agents.

(** Whether a key is selected, in the words of the specification: with a
    selection given, the keys in it; otherwise every key. *)
Definition is_selected (selected : option (list string)) (k : string) : bool :=
  match selected with
  | Some sel => in_list k sel
  | None => true
  end.

(** The participants in the words of the specification: the selected
    providers that are available. *)
Definition spec_participants (agents : dict AIAgent)
    (selected : option (list string)) : list string :=
  keys (filter (fun '(k, v) => is_selected selected k && available v) agents).

(** Keys of the available agents of the whole registry. *)
Definition all_available (agents : dict AIAgent) : list string :=
  keys (filter_available agents).

(** The participants a result reports; none when the run was refused. *)
Definition result_participants (r : ConsultationResult) : list string :=
  match r with
  | Report rep => participants rep
  | NoAgents _ => []
  end.

(** The invocation made for [agent] raises the timeout exception that the
    handlers name: [subprocess.TimeoutExpired] from the spawned process of a
    command-line agent, [TimeoutError] from the HTTP request of the API
    agent. *)
Definition invocation_raises_timeout (env : Env) (agent : AIAgent)
    (prompt : string) (timeout : Z) : Prop :=
  if is_api agent then
    name agent = "Perplexity"
    /\ exists api_key,
         getenv env "PERPLEXITY_API_KEY" = Some api_key
         /\ api_key <> ""
         /\ urlopen env "https://api.perplexity.ai/v1/responses" api_key
              prompt timeout = UrlTimeoutError
  else
    subprocess_run env (command agent ++ [prompt])%list (Some timeout)
    = RunTimeoutExpired.

(** The HTTP request runs into its timeout and [urllib] reports it as a
    [URLError] whose reason prints as [reason] ("timed out" for a timeout
    while connecting). *)
Definition request_timeout_as_url_error (env : Env) (prompt : string)
    (timeout : Z) (reason : string) : Prop :=
  exists api_key,
    getenv env "PERPLEXITY_API_KEY" = Some api_key
    /\ api_key <> ""
    /\ urlopen env "https://api.perplexity.ai/v1/responses" api_key
         prompt timeout = UrlURLError reason.

(** The selection as [run_consultation] reads it: an explicitly empty list
    counts as no selection. *)
Definition effective_selection (selected : option (list string))
  : option (list string) :=
  match selected with
  | Some [] => None
  | _ => selected
  end.

(** *** Concrete systems used in the examples *)

(** A command-line agent whose key, name and executable coincide. *)
Definition cli (n : string) (a : bool) : AIAgent :=
  {| name := n; command := [n]; available := a; is_api := false |}.

(** A system on which every process run has the outcome [o r] in round [r],
    no environment variable is set and every request is refused. *)
Definition system (o : Z -> RunOutcome) (r : Z) (key : string) : Env :=
  {| platform := "linux";
     getenv := fun _ => None;
     subprocess_run := fun _ _ => o r;
     urlopen := fun _ _ _ _ => UrlURLError "refused" |}.

(** Every agent prints ["a<r>"] in round [r] and exits with status 0. *)
Definition answering : Z -> string -> Env :=
  system (fun r => Completed 0 ("a" ++ of_int r ++ nl) "").

(** Every agent exits with status 0 and prints nothing. *)
Definition silent : Z -> string -> Env :=
  system (fun _ => Completed 0 "" "").

(** A system on which the locator program itself cannot be started, so that
    [subprocess.run] raises [FileNotFoundError]. *)
Definition no_locator : Env :=
  {| platform := "linux";
     getenv := fun _ => None;
     subprocess_run :=
       fun _ _ => RunRaised "[Errno 2] No such file or directory: 'which'";
     urlopen := fun _ _ _ _ => UrlURLError "refused" |}.

(** A system with the API key set on which every request times out while the
    response is read. *)
Definition slow_api : Env :=
  {| platform := "linux";
     getenv := fun v => if String.eqb v "PERPLEXITY_API_KEY"
                        then Some "key" else None;
     subprocess_run := fun _ _ => RunTimeoutExpired;
     urlopen := fun _ _ _ _ => UrlTimeoutError |}.

Definition perplexity : AIAgent :=
  {| name := "Perplexity"; command := []; available := true; is_api := true |}.

(** The name under which a reply is recorded. *)
Definition reply_name (r : Reply) : string := fst (fst r).

(** The scenario of the specification: A is available and B is not. *)
Definition scenario : dict AIAgent :=
  [("A", cli "A" true); ("B", cli "B" false)].

(** A registry with the script's own entry for Claude, found available. *)
Definition claude_only : dict AIAgent :=
  [("claude", {| name := "Claude"; command := ["claude"; "-p"];
                 available := true; is_api := false |})].

(** Every call finishes before the ones submitted after it. *)
Definition in_submission_order : Z -> list nat := fun _ => [].


(* ------------------------------------------------------------------------- *)
(** ** Invocations of a run, round by round *)

(** The invocation attempts of round [k]. *)
Definition round_trace (envs : Z -> string -> Env) (order : Z -> list nat)
    (question_text : string) (available_agents : dict AIAgent) (timeout : Z)
    (k : nat) : list Event :=
  trace (run_round envs order question_text available_agents timeout
           (Z.of_nat k)
           (transcript_before envs order question_text available_agents
              timeout k)).

(** The [available_agents] of [run_consultation]: the selected agents that
    are available. *)
Definition selected_participants (agents : dict AIAgent)
    (selected : option (list string)) : dict AIAgent :=
  filter_available (filter_selected agents selected).

(** What [query_agent] returns in round [k] for the participant [agent]
    registered under [key]. *)
Definition reply_in_round (envs : Z -> string -> Env) (order : Z -> list nat)
    (question_text : string) (available_agents : dict AIAgent) (timeout : Z)
    (k : nat) (key : string) (agent : AIAgent) : Reply :=
  value (query_agent (envs (Z.of_nat k) key) agent
           (prompt_of_round envs order question_text available_agents timeout k)
           timeout).

(** Two loop states hold the same data, whatever the order of the keys. *)
Definition same_outcome (st st' : RoundResult * dict string) : Prop :=
  round (fst st) = round (fst st')
  /\ forall n,
       get n (responses (fst st)) = get n (responses (fst st'))
       /\ get n (errors (fst st)) = get n (errors (fst st'))
       /\ get n (snd st) = get n (snd st').

(* ------------------------------------------------------------------------- *)
(** ** Console output and the command line *)

(** [s * n]. *)
Fixpoint times (s : string) (n : nat) : string :=
  match n with
  | O => ""
  | S n' => s ++ times s n'
  end.

(** ['='*60]. *)
Definition rule : string := times "=" 60.

(** The arguments of the [print] calls that close an iteration of the round
    loop in text mode, in order. *)
Definition round_progress (round_results : RoundResult) : list string :=
  List.app
    [nl ++ rule; "ROUND " ++ of_int (round round_results); rule]
    (List.app
       (flat_map (fun '(name, response) =>
                    [nl ++ "--- " ++ name ++ " ---"; response])
          (responses round_results))
       (flat_map (fun '(name, error) =>
                    [nl ++ "--- " ++ name ++ " (ERROR) ---"; error])
          (errors round_results))).

(** Everything [run_consultation] prints: the progress of each round when
    [output_format == "text"], nothing otherwise, and nothing when the run is
    refused before the loop. *)
Definition consultation_output (output_format : string)
    (results : ConsultationResult) : list string :=
  match results with
  | Report rep =>
      if String.eqb output_format "text"
      then flat_map round_progress (rounds rep)
      else []
  | NoAgents _ => []
  end.

(** The parsed command line.  [--agents] takes one or more keys, so a given
    list is never empty; [--format] is one of "text" and "json". *)
Record Args : Type := {
  arg_question : option string;
  arg_agents : option (list string);
  arg_rounds : Z;
  arg_timeout : Z;
  arg_format : string;
  arg_list_agents : bool
}.

(** One [print] call of [main]: a line of text, or the JSON rendering of the
    results ([json.dumps(results, indent=2)], kept as the value rendered). *)
Inductive Printed : Type :=
| Line (s : string)
| JsonDump (results : ConsultationResult).

(** How [main] ends. *)
Inductive Exit : Type :=
| Finished
| ParserError (msg : string)     (* [parser.error(msg)] *)
| Uncaught (e : PyExc).

Definition agent_status (agent : AIAgent) : string :=
  if is_api agent then
    if available agent then "API configured" else "API key not set"
  else
    if available agent then "CLI available" else "CLI not found".

(** [results.get("unavailable")] when it is a non-empty list. *)
Definition unavailable_of (results : ConsultationResult) : list string :=
  match results with
  | Report rep => unavailable rep
  | NoAgents _ => []
  end.

(** The part of [main] that follows [parser.parse_args()], for the arguments
    it returned: the invocations made by the consultation, the output, and how
    the program ends.  [startup] is the system when the registry is built.
    The whole function, parsing included, is [script] below. *)
Definition main (startup : Env) (envs : Z -> string -> Env)
    (order : Z -> list nat) (args : Args)
  : list Event * list Printed * Exit :=
  match get_agents startup with
  | Raise e => ([], [], Uncaught e)
  | Return agents =>
      if arg_list_agents args then
        ([],
         Line "Available AI Agents:"
         :: map (fun '(key, agent) =>
                   Line ("  " ++ key ++ ": " ++ name agent
                         ++ " [" ++ agent_status agent ++ "]"))
              agents,
         Finished)
      else
        match arg_question args with
        | None | Some EmptyString =>
            ([], [], ParserError "question is required")
        | Some q =>
            let '(invocations, results) :=
              run_consultation envs order q agents (arg_agents args)
                (arg_rounds args) (arg_timeout args) in
            let progress :=
              map Line (consultation_output (arg_format args) results) in
            if String.eqb (arg_format args) "json" then
              (invocations, List.app progress [JsonDump results], Finished)
            else if String.eqb (arg_format args) "text" then
              (invocations,
               List.app progress
                 (List.app
                    [Line (nl ++ rule); Line "CONSULTATION COMPLETE";
                     Line rule]
                    match unavailable_of results with
                    | [] => []
                    | (_ :: _) as u =>
                        [Line ("Unavailable agents: " ++ join ", " u)]
                    end),
               Finished)
            else (invocations, progress, Finished)
        end
  end.

(** *** More concrete systems *)

(** A system on which every tool is found, the API key is set, every process
    prints "pong" and every request is answered with an [output] field. *)
Definition healthy : Env :=
  {| platform := "linux";
     getenv := fun v => if String.eqb v "PERPLEXITY_API_KEY"
                        then Some "key" else None;
     subprocess_run := fun _ _ => Completed 0 ("pong" ++ nl) "";
     urlopen := fun _ _ _ _ => Responded (Some "pong") "{'output': 'pong'}" |}.

(** A system on which no tool is found and no API key is set. *)
Definition bare : Env :=
  {| platform := "win32";
     getenv := fun _ => None;
     subprocess_run := fun _ _ => Completed 1 "" "not found";
     urlopen := fun _ _ _ _ => UrlURLError "refused" |}.

(** An API agent that is not Perplexity. *)
Definition other_api : AIAgent :=
  {| name := "Other"; command := []; available := true; is_api := true |}.

(** The last submitted call finishes first. *)
Definition last_first : Z -> list nat := fun _ => [1%nat; 1%nat; 1%nat; 1%nat].

Definition text_args (q : option string) : Args :=
  {| arg_question := q; arg_agents := None; arg_rounds := 1;
     arg_timeout := 120; arg_format := "text"; arg_list_agents := false |}.

(** A system with the API key set on which every request times out while
    connecting. *)
Definition connect_timeout_api : Env :=
  {| platform := "linux";
     getenv := fun v => if String.eqb v "PERPLEXITY_API_KEY"
                        then Some "key" else None;
     subprocess_run := fun _ _ => RunTimeoutExpired;
     urlopen := fun _ _ _ _ => UrlURLError "timed out" |}.

(** Two participants registered under different keys with the same display
    name. *)
Definition same_named : dict AIAgent :=
  [("k1", {| name := "Same"; command := ["one"]; available := true;
             is_api := false |});
   ("k2", {| name := "Same"; command := ["two"]; available := true;
             is_api := false |})].

(** The participant of key "k1" answers "x" in round 1 and the one of key
    "k2" answers "y" in round 2; every other call times out. *)
Definition taking_turns (r : Z) (key : string) : Env :=
  {| platform := "linux";
     getenv := fun _ => None;
     subprocess_run :=
       fun _ _ =>
         if (r =? 1) && String.eqb key "k1" then Completed 0 "x" ""
         else if (r =? 2) && String.eqb key "k2" then Completed 0 "y" ""
         else RunTimeoutExpired;
     urlopen := fun _ _ _ _ => UrlURLError "refused" |}.

(** [a] is immediately followed by [b] in [l]. *)
Definition Consecutive {A} (a b : A) (l : list A) : Prop :=
  exists pre post, l = (pre ++ a :: b :: post)%list.

(** *** The script from its first statement *)

(** [parser.parse_args()]: it returns the parsed arguments, or it ends the
    program itself ([--help], an invalid argument) with an exit status. *)
Inductive ParseOutcome : Type :=
| ParseExit (status : Z)
| Parsed (args : Args).

Inductive ScriptEnd : Type :=
| ExitedInParsing (status : Z)
| Ran (e : Exit).

(** [main] from its first statement: the arguments are parsed first, the
    registry is built next. *)
Definition script (parse : ParseOutcome) (startup : Env)
    (envs : Z -> string -> Env) (order : Z -> list nat)
  : list Event * list Printed * ScriptEnd :=
  match parse with
  | ParseExit status => ([], [], ExitedInParsing status)
  | Parsed args =>
      let '(invocations, output, e) := main startup envs order args in
      (invocations, output, Ran e)
  end.

(* ------------------------------------------------------------------------- *)
(** ** Strings: auxiliary facts *)

Lemma truthy_false (s : string) : truthy s = false <-> s = "".
Proof. destruct s; simpl; split; congruence. Qed.

Lemma truthy_true (s : string) : truthy s = true <-> s <> "".
Proof. destruct s; simpl; split; congruence. Qed.

Lemma append_assoc (a b c : string) : (a ++ b) ++ c = a ++ b ++ c.
Proof. induction a as [|x a IH]; simpl; [reflexivity | now rewrite IH]. Qed.

Lemma append_nil_r (a : string) : a ++ "" = a.
Proof. induction a as [|x a IH]; simpl; [reflexivity | now rewrite IH]. Qed.

Lemma Substring_refl (s : string) : Substring s s.
Proof. exists "", "". simpl. now rewrite append_nil_r. Qed.

Lemma Substring_app_l (n h p : string) : Substring n h -> Substring n (p ++ h).
Proof.
  intros (a & b & ->). exists (p ++ a), b. now rewrite append_assoc.
Qed.

Lemma Substring_app_r (n h s : string) : Substring n h -> Substring n (h ++ s).
Proof.
  intros (a & b & ->). exists a, (b ++ s). now rewrite !append_assoc.
Qed.

Lemma Substring_trans (a b c : string) :
  Substring a b -> Substring b c -> Substring a c.
Proof.
  intros Hab (p & s & ->). now apply Substring_app_l, Substring_app_r.
Qed.

Lemma prefix_app (n h : string) :
  String.prefix n h = true <-> exists post, h = n ++ post.
Proof.
  revert h. induction n as [|c n IH]; intros [|d h]; simpl.
  - split; [intros _; now exists "" | reflexivity].
  - split; [intros _; now exists (String d h) | reflexivity].
  - split; [discriminate | intros (post & H); discriminate].
  - destruct (Ascii.ascii_dec c d) as [->|Hne].
    + rewrite IH. split; intros (post & H); exists post; congruence.
    + split; [discriminate | intros (post & H); congruence].
Qed.

Lemma contains_spec (n h : string) : contains n h = true <-> Substring n h.
Proof.
  induction h as [|d h IH].
  - change (contains n "") with (String.prefix n "" || false).
    rewrite orb_false_r, prefix_app. split.
    + intros (post & H). exists "", post. exact H.
    + intros (pre & post & H). destruct pre; simpl in H.
      * now exists post.
      * discriminate.
  - change (contains n (String d h))
      with (String.prefix n (String d h) || contains n h).
    rewrite orb_true_iff, IH, prefix_app. split.
    + intros [(post & H) | (pre & post & H)].
      * exists "", post. exact H.
      * exists (String d pre), post. simpl. now rewrite H.
    + intros (pre & post & H). destruct pre as [|e pre]; simpl in H.
      * left. now exists post.
      * right. exists pre, post. congruence.
Qed.

Lemma contains_false (n h : string) : contains n h = false -> ~ Substring n h.
Proof. intros H Hs. apply contains_spec in Hs. congruence. Qed.

Lemma Substring_join (sep x : string) (parts : list string) :
  In x parts -> Substring x (join sep parts).
Proof.
  unfold join. induction parts as [|y parts IH]; intros Hin; [contradiction|].
  destruct Hin as [->|Hin].
  - destruct parts; simpl; [apply Substring_refl|].
    apply Substring_app_r, Substring_refl.
  - destruct parts as [|z parts]; [contradiction|].
    change (Substring x (y ++ sep ++ String.concat sep (z :: parts))).
    now apply Substring_app_l, Substring_app_l, IH.
Qed.

(* ------------------------------------------------------------------------- *)
(** ** Dictionaries: auxiliary facts *)

Section DictFacts.
Context {V : Type}.
Implicit Types (d : dict V) (k : string) (v : V).

Lemma get_set_same k v d : get k (set k v d) = Some v.
Proof.
  induction d as [|[k' v'] d IH]; simpl.
  - now rewrite String.eqb_refl.
  - destruct (String.eqb k k') eqn:E; simpl; rewrite E; auto.
Qed.

Lemma get_set_other k k' v d : k <> k' -> get k (set k' v d) = get k d.
Proof.
  intros Hne. induction d as [|[k2 v2] d IH]; simpl.
  - apply String.eqb_neq in Hne. now rewrite Hne.
  - destruct (String.eqb k' k2) eqn:E; simpl.
    + apply String.eqb_eq in E. subst k2.
      apply String.eqb_neq in Hne. now rewrite Hne.
    + now rewrite IH.
Qed.

Lemma get_set k k' v d :
  get k (set k' v d) = if String.eqb k k' then Some v else get k d.
Proof.
  destruct (String.eqb_spec k k') as [->|Hne].
  - apply get_set_same.
  - now apply get_set_other.
Qed.

Lemma get_Some_In k v d : get k d = Some v -> In (k, v) d.
Proof.
  induction d as [|[k' v'] d IH]; simpl; [discriminate|].
  destruct (String.eqb_spec k k') as [->|Hne].
  - intros [= ->]. now left.
  - intros H. right. auto.
Qed.

Lemma get_None_keys k d : get k d = None <-> ~ In k (keys d).
Proof.
  induction d as [|[k' v'] d IH]; simpl.
  - tauto.
  - destruct (String.eqb_spec k k') as [->|Hne].
    + split; [discriminate | intros H; exfalso; auto].
    + rewrite IH. split; [intros H [E|E]; [congruence | auto] | tauto].
Qed.

Lemma get_None_keys_neg k d : get k d <> None -> In k (keys d).
Proof.
  intros H. destruct (in_dec string_dec k (keys d)) as [Hin|Hnin]; auto.
  apply get_None_keys in Hnin. contradiction.
Qed.

Lemma In_get k v d : NoDup (keys d) -> In (k, v) d -> get k d = Some v.
Proof.
  induction d as [|[k' v'] d IH]; simpl; [contradiction|].
  intros Hnd [E|Hin].
  - injection E as -> ->. now rewrite String.eqb_refl.
  - inversion Hnd as [|? ? Hnotin Hnd']; subst.
    destruct (String.eqb_spec k k') as [->|Hne].
    + exfalso. apply Hnotin. change k' with (fst (k', v)). now apply in_map.
    + auto.
Qed.

Lemma mem_get k d : mem k d = true <-> get k d <> None.
Proof. unfold mem. destruct (get k d); split; congruence. Qed.

(** Assignment keeps the order of the keys and appends a new key. *)
Lemma keys_set k v d :
  keys (set k v d) = if mem k d then keys d else (keys d ++ [k])%list.
Proof.
  unfold mem. induction d as [|[k' v'] d IH]; simpl; [reflexivity|].
  destruct (String.eqb k k') eqn:E; simpl; [reflexivity|].
  rewrite IH. now destruct (get k d).
Qed.

Lemma NoDup_keys_set k v d : NoDup (keys d) -> NoDup (keys (set k v d)).
Proof.
  intros Hnd. rewrite keys_set. unfold mem.
  destruct (get k d) eqn:E; [assumption|].
  apply get_None_keys in E.
  apply NoDup_rev in Hnd. rewrite <- (rev_involutive (keys d ++ [k])).
  apply NoDup_rev. rewrite rev_app_distr. simpl. constructor; [|assumption].
  now rewrite <- in_rev.
Qed.
End DictFacts.

(* ------------------------------------------------------------------------- *)
(** ** The trace monad and the round loop: auxiliary facts *)

Lemma value_bind {A B} (m : M A) (f : A -> M B) :
  value (bind m f) = value (f (value m)).
Proof. unfold bind, value. destruct m as [t a]. simpl. now destruct (f a). Qed.

Lemma value_submit_all {A B} (f : A -> M B) (l : list A) :
  value (submit_all f l) = map (fun x => value (f x)) l.
Proof.
  induction l as [|x l IH]; simpl; [reflexivity|].
  now rewrite value_bind, value_bind, IH.
Qed.

Lemma insert_at_perm {A} (n : nat) (x : A) (l : list A) :
  Permutation (insert_at n x l) (x :: l).
Proof.
  revert n. induction l as [|y l IH]; intros [|n]; simpl; auto.
  rewrite IH. apply perm_swap.
Qed.

(** Whatever the code, the futures are yielded exactly once each. *)
Lemma as_completed_perm {A} (code : list nat) (l : list A) :
  Permutation (as_completed code l) l.
Proof.
  revert code. induction l as [|x l IH]; intros code; simpl; auto.
  rewrite insert_at_perm. now constructor.
Qed.

Lemma insert_at_length {A} (l1 l2 : list A) (x : A) :
  insert_at (List.length l1) x (l1 ++ l2) = (l1 ++ x :: l2)%list.
Proof.
  induction l1 as [|y l1 IH]; simpl; [now destruct l2|]. now rewrite IH.
Qed.

(** Conversely, every order of completion is denoted by some code. *)
Lemma as_completed_complete {A} (l l' : list A) :
  Permutation l l' -> exists code, as_completed code l = l'.
Proof.
  revert l'. induction l as [|x l IH]; intros l' Hp.
  - apply Permutation_nil in Hp. subst. now exists [].
  - assert (Hin : In x l') by (eapply Permutation_in; [exact Hp | now left]).
    apply in_split in Hin. destruct Hin as (l1 & l2 & ->).
    apply Permutation_cons_app_inv in Hp.
    destruct (IH _ Hp) as [code Hcode].
    exists (List.length l1 :: code). simpl. rewrite Hcode.
    apply insert_at_length.
Qed.

Lemma range_succ (n : nat) :
  range 1 (Z.of_nat (S n) + 1) =
  (range 1 (Z.of_nat n + 1) ++ [Z.of_nat (S n)])%list.
Proof.
  unfold range.
  replace (Z.to_nat (Z.of_nat (S n) + 1 - 1)) with (S n) by lia.
  replace (Z.to_nat (Z.of_nat n + 1 - 1)) with n by lia.
  rewrite seq_S, map_app. cbn [map Nat.add]. do 2 f_equal. lia.
Qed.

Lemma range_to_nat (r : Z) :
  range 1 (r + 1) = range 1 (Z.of_nat (Z.to_nat r) + 1).
Proof. unfold range. do 2 f_equal. lia. Qed.

Lemma range_eq (n : nat) :
  range 1 (Z.of_nat n + 1) = map Z.of_nat (seq 1 n).
Proof.
  induction n as [|n IH]; [reflexivity|].
  rewrite range_succ, IH, seq_S, map_app. reflexivity.
Qed.

(** The name in a reply is the queried agent's [name]. *)
Lemma query_agent_name env agent prompt timeout :
  reply_name (value (query_agent env agent prompt timeout)) = name agent.
Proof.
  unfold query_agent, query_perplexity_api, reply_name, value, bind, tell, ret.
  destruct (available agent), (is_api agent); simpl; try reflexivity.
  - destruct (String.eqb_spec (name agent) "Perplexity") as [E|_];
      [|reflexivity].
    rewrite E.
    destruct (getenv env "PERPLEXITY_API_KEY") as [[|c k]|]; try reflexivity.
    destruct (urlopen _ _ _ _ _) as [[o|] w| | | |]; reflexivity.
  - destruct (subprocess_run _ _ _); reflexivity.
Qed.

(** *** Folding the replies of a round *)

Section FoldReplies.

Implicit Types (rs : list Reply) (rr : RoundResult) (T : dict string).

Lemma record_reply_round rs rr T :
  round (fst (fold_left record_reply rs (rr, T))) = round rr.
Proof.
  revert rr T. induction rs as [|[[n t] e] rs IH]; intros rr T; simpl;
    [reflexivity|].
  destruct (error_set e); rewrite IH; reflexivity.
Qed.

(** The transcript after the fold is the transcript [T0] from before the
    round, overridden by what the round recorded under [responses]. *)
Lemma record_reply_transcript T0 rs rr T :
  (forall n, get n T = match get n (responses rr) with
                       | Some t => Some t
                       | None => get n T0
                       end) ->
  forall n,
    get n (snd (fold_left record_reply rs (rr, T))) =
    match get n (responses (fst (fold_left record_reply rs (rr, T)))) with
    | Some t => Some t
    | None => get n T0
    end.
Proof.
  revert rr T. induction rs as [|[[a t] e] rs IH]; intros rr T Hinv; simpl;
    [exact Hinv|].
  destruct (error_set e); apply IH; simpl; [exact Hinv|].
  intros n. rewrite !get_set. destruct (String.eqb n a); auto.
Qed.

Lemma record_reply_keys_order rs rr T :
  exists new, keys (snd (fold_left record_reply rs (rr, T)))
              = (keys T ++ new)%list.
Proof.
  revert rr T. induction rs as [|[[a t] e] rs IH]; intros rr T; simpl.
  - exists []. now rewrite app_nil_r.
  - destruct (error_set e); [apply IH|].
    destruct (IH {| round := round rr;
                    responses := set a t (responses rr);
                    errors := errors rr |} (set a t T)) as [new Hnew].
    rewrite Hnew, keys_set. destruct (mem a T).
    + now exists new.
    + exists (a :: new). now rewrite <- app_assoc.
Qed.

Lemma record_reply_NoDup rs rr T :
  NoDup (keys T) -> NoDup (keys (snd (fold_left record_reply rs (rr, T)))).
Proof.
  revert rr T. induction rs as [|[[a t] e] rs IH]; intros rr T Hnd; simpl;
    [exact Hnd|].
  destruct (error_set e); apply IH; [exact Hnd|].
  now apply NoDup_keys_set.
Qed.

(** Every recorded response is the text of a reply without error. *)
Lemma record_reply_responses rs rr T n t :
  get n (responses (fst (fold_left record_reply rs (rr, T)))) = Some t ->
  get n (responses rr) = Some t
  \/ exists e, In (n, t, e) rs /\ error_set e = None.
Proof.
  revert rr T. induction rs as [|[[a u] e] rs IH]; intros rr T; simpl;
    [auto|].
  destruct (error_set e) eqn:He; intros H; apply IH in H; simpl in H.
  - destruct H as [H|(e' & Hin & He')]; [now left|].
    right. exists e'. auto.
  - destruct H as [H|(e' & Hin & He')].
    + rewrite get_set in H. destruct (String.eqb_spec n a) as [->|Hne].
      * injection H as ->. right. exists e. auto.
      * now left.
    + right. exists e'. auto.
Qed.

(** The keys of a round result are the names in the replies. *)
Lemma record_reply_keys_In rs rr T n :
  let rr' := fst (fold_left record_reply rs (rr, T)) in
  In n (keys (responses rr') ++ keys (errors rr'))%list <->
  In n (keys (responses rr) ++ keys (errors rr))%list
  \/ In n (map reply_name rs).
Proof.
  revert rr T. induction rs as [|[[a u] e] rs IH]; intros rr T; simpl;
    [tauto|].
  destruct (error_set e); rewrite IH; simpl; rewrite !in_app_iff, keys_set;
    unfold reply_name; simpl.
  - destruct (mem a (errors rr)) eqn:Hm.
    + apply mem_get, get_None_keys_neg in Hm.
      split; [tauto|]. intros [H|[<-|H]]; tauto.
    + rewrite in_app_iff. simpl. tauto.
  - destruct (mem a (responses rr)) eqn:Hm.
    + apply mem_get, get_None_keys_neg in Hm.
      split; [tauto|]. intros [H|[<-|H]]; tauto.
    + rewrite in_app_iff. simpl. tauto.
Qed.

(** With pairwise distinct fresh names, every reply adds exactly one key. *)
Lemma record_reply_keys_perm rs rr T :
  NoDup (map reply_name rs) ->
  (forall n, In n (map reply_name rs) ->
             ~ In n (keys (responses rr) ++ keys (errors rr))%list) ->
  let rr' := fst (fold_left record_reply rs (rr, T)) in
  Permutation (keys (responses rr') ++ keys (errors rr'))%list
    ((keys (responses rr) ++ keys (errors rr)) ++ map reply_name rs)%list.
Proof.
  revert rr T. induction rs as [|[[a u] e] rs IH]; intros rr T Hnd Hfresh.
  - simpl. now rewrite app_nil_r.
  - cbn [map reply_name fst] in Hnd, Hfresh.
    inversion Hnd as [|? ? Ha Hnd']; subst.
    assert (Hfa : ~ In a (keys (responses rr) ++ keys (errors rr))%list)
      by (apply Hfresh; now left).
    rewrite in_app_iff in Hfa.
    assert (Hr : mem a (responses rr) = false).
    { destruct (mem a (responses rr)) eqn:Hm; [|reflexivity].
      apply mem_get, get_None_keys_neg in Hm. tauto. }
    assert (He : mem a (errors rr) = false).
    { destruct (mem a (errors rr)) eqn:Hm; [|reflexivity].
      apply mem_get, get_None_keys_neg in Hm. tauto. }
    cbn [fold_left record_reply].
    destruct (error_set e); cbv zeta.
    + rewrite IH; auto; cbn [responses errors].
      * rewrite keys_set, He, <- !app_assoc. reflexivity.
      * intros n Hn. rewrite keys_set, He, !in_app_iff.
        intros [H|[H|[<-|[]]]]; [| |contradiction];
          apply (Hfresh n); auto using in_or_app, in_cons.
    + rewrite IH; auto; cbn [responses errors].
      * rewrite keys_set, Hr, <- !app_assoc. apply Permutation_app_head.
        cbn [app]. apply Permutation_middle.
      * intros n Hn. rewrite keys_set, Hr, !in_app_iff.
        intros [[H|[<-|[]]]|H]; [|contradiction|];
          apply (Hfresh n); auto using in_or_app, in_cons.
Qed.

End FoldReplies.

(** *** The round loop *)

Section LoopFacts.

Variable envs : Z -> string -> Env.
Variable order : Z -> list nat.
Variable question_text : string.
Variable available_agents : dict AIAgent.
Variable timeout : Z.

Local Abbreviation run_round' :=
  (run_round envs order question_text available_agents timeout).
Local Abbreviation run_rounds' :=
  (run_rounds envs order question_text available_agents timeout).
Local Abbreviation state_after' :=
  (state_after envs order question_text available_agents timeout).
Local Abbreviation transcript_before' :=
  (transcript_before envs order question_text available_agents timeout).
Local Abbreviation transcript_after' :=
  (transcript_after envs order question_text available_agents timeout).
Local Abbreviation result_of_round' :=
  (result_of_round envs order question_text available_agents timeout).
Local Abbreviation replies_of_round' :=
  (replies_of_round envs order question_text available_agents timeout).
Local Abbreviation latest_success' :=
  (latest_success envs order question_text available_agents timeout).

Lemma value_run_round k T :
  value (run_round' k T) =
  fold_left record_reply (replies_of_round' k T)
    ({| round := k; responses := []; errors := [] |}, T).
Proof.
  unfold run_round, replies_of_round.
  rewrite value_bind, value_submit_all. unfold ret, value. simpl.
  do 2 f_equal. apply map_ext. now intros [key agent].
Qed.

Lemma value_run_rounds_app l1 l2 st :
  value (run_rounds' (l1 ++ l2) st) =
  value (run_rounds' l2 (value (run_rounds' l1 st))).
Proof.
  revert st. induction l1 as [|r l1 IH]; intros st; simpl; [reflexivity|].
  rewrite !value_bind. apply IH.
Qed.

Lemma state_after_succ n :
  state_after' (S n) =
  ((fst (state_after' n) ++ [result_of_round' (S n)])%list,
   snd (value (run_round' (Z.of_nat (S n)) (transcript_after' n)))).
Proof.
  unfold state_after. rewrite range_succ, value_run_rounds_app.
  simpl. rewrite value_bind. reflexivity.
Qed.

Lemma transcript_after_succ n :
  transcript_after' (S n) =
  snd (fold_left record_reply
         (replies_of_round' (Z.of_nat (S n)) (transcript_after' n))
         ({| round := Z.of_nat (S n); responses := []; errors := [] |},
          transcript_after' n)).
Proof.
  unfold transcript_after at 1.
  rewrite state_after_succ. simpl. now rewrite value_run_round.
Qed.

Lemma result_of_round_succ n :
  result_of_round' (S n) =
  fst (fold_left record_reply
         (replies_of_round' (Z.of_nat (S n)) (transcript_after' n))
         ({| round := Z.of_nat (S n); responses := []; errors := [] |},
          transcript_after' n)).
Proof.
  unfold result_of_round. now rewrite value_run_round.
Qed.

Lemma rounds_after n :
  fst (state_after' n) = map result_of_round' (seq 1 n).
Proof.
  induction n as [|n IH]; [reflexivity|].
  rewrite state_after_succ, seq_S, map_app. simpl. now rewrite IH.
Qed.

Lemma round_of_result n : round (result_of_round' (S n)) = Z.of_nat (S n).
Proof. rewrite result_of_round_succ. apply record_reply_round. Qed.

(** The transcript holds, for every name, the text of its latest Success. *)
Lemma transcript_latest k n :
  get n (transcript_after' k) = latest_success' k n.
Proof.
  induction k as [|k IH]; [reflexivity|].
  rewrite transcript_after_succ. cbn [latest_success].
  rewrite result_of_round_succ, <- IH.
  now apply record_reply_transcript.
Qed.

Lemma transcript_NoDup k : NoDup (keys (transcript_after' k)).
Proof.
  induction k as [|k IH]; [constructor|].
  rewrite transcript_after_succ. now apply record_reply_NoDup.
Qed.

Lemma replies_names k T :
  Permutation (map reply_name (replies_of_round' k T)) (names available_agents).
Proof.
  unfold replies_of_round. rewrite as_completed_perm, map_map.
  unfold names. erewrite map_ext; [reflexivity|].
  intros [key agent]. apply query_agent_name.
Qed.

(** Every reply of a round is what [query_agent] returned for a participant. *)
Lemma replies_origin k T r :
  In r (replies_of_round' k T) ->
  exists key agent,
    In (key, agent) available_agents
    /\ r = value (query_agent (envs k key) agent
                    (build_prompt k question_text T) timeout).
Proof.
  unfold replies_of_round. intros H.
  apply (Permutation_in _ (as_completed_perm _ _)) in H.
  apply in_map_iff in H. destruct H as ([key agent] & <- & Hin).
  now exists key, agent.
Qed.

(** A round result is keyed by the display names of the participants. *)
Lemma round_keys_In k n :
  In n (keys (responses (result_of_round' (S k)))
        ++ keys (errors (result_of_round' (S k))))%list
  <-> In n (names available_agents).
Proof.
  rewrite result_of_round_succ, record_reply_keys_In. simpl.
  split.
  - intros [[]|H]. eapply Permutation_in; [apply replies_names | exact H].
  - intros H. right.
    eapply Permutation_in; [symmetry; apply replies_names | exact H].
Qed.

Lemma round_keys_perm k :
  NoDup (names available_agents) ->
  Permutation
    (keys (responses (result_of_round' (S k)))
     ++ keys (errors (result_of_round' (S k))))%list
    (names available_agents).
Proof.
  intros Hnd. rewrite result_of_round_succ.
  rewrite record_reply_keys_perm; simpl.
  - apply replies_names.
  - eapply Permutation_NoDup; [symmetry; apply replies_names | exact Hnd].
  - intros n _ [].
Qed.

End LoopFacts.

(** *** The whole consultation *)

Lemma run_consultation_report envs order q agents selected n_rounds timeout :
  let chosen := filter_selected agents selected in
  filter_available chosen <> [] ->
  value (run_consultation envs order q agents selected n_rounds timeout) =
  Report
    {| question := q;
       rounds := map (result_of_round envs order q (filter_available chosen)
                        timeout)
                     (seq 1 (Z.to_nat n_rounds));
       participants := keys (filter_available chosen);
       unavailable :=
         keys (filter (fun '(_, v) => negb (available v)) chosen) |}.
Proof.
  intros chosen Hne. unfold run_consultation. fold chosen.
  destruct (filter_available chosen) as [|a rest] eqn:E; [contradiction|].
  rewrite value_bind. unfold ret, value at 1. cbn [snd].
  rewrite <- rounds_after. unfold state_after.
  now rewrite <- range_to_nat.
Qed.

Lemma run_consultation_refused envs order q agents selected n_rounds timeout :
  filter_available (filter_selected agents selected) = [] ->
  run_consultation envs order q agents selected n_rounds timeout =
  ([], NoAgents "No AI agents available").
Proof. intros H. unfold run_consultation. now rewrite H. Qed.

Lemma in_list_In k l : in_list k l = true <-> In k l.
Proof.
  unfold in_list. rewrite existsb_exists. split.
  - intros (x & Hin & E). apply String.eqb_eq in E. now subst.
  - intros H. exists k. split; [assumption | apply String.eqb_refl].
Qed.

Lemma filter_twice {A} (f g : A -> bool) (l : list A) :
  filter f (filter g l) = filter (fun x => g x && f x) l.
Proof.
  induction l as [|x l IH]; simpl; [reflexivity|].
  destruct (g x); simpl; [|assumption].
  destruct (f x); now rewrite IH.
Qed.

(** Off the empty selection, the code's two filters compute the participants
    of the specification. *)
Lemma filter_available_selected agents selected :
  selected <> Some [] ->
  keys (filter_available (filter_selected agents selected))
  = spec_participants agents selected.
Proof.
  intros Hsel. unfold spec_participants, filter_available, filter_selected.
  f_equal. destruct selected as [[|s sel]|]; [congruence| |].
  - rewrite filter_twice. apply filter_ext. now intros [k v].
  - apply filter_ext. now intros [k v].
Qed.

Lemma spec_participants_In agents selected k :
  In k (spec_participants agents selected) <->
  is_selected selected k = true
  /\ exists a, In (k, a) agents /\ available a = true.
Proof.
  unfold spec_participants, keys. rewrite in_map_iff. split.
  - intros ([k' a] & E & Hin). simpl in E. subst k'.
    apply filter_In in Hin. destruct Hin as [Hin Hb].
    apply andb_true_iff in Hb. destruct Hb. eauto.
  - intros (Hs & a & Hin & Ha). exists (k, a). split; [reflexivity|].
    apply filter_In. split; [assumption|]. now rewrite Hs, Ha.
Qed.

Lemma truthy_app_r (a b : string) : truthy b = true -> truthy (a ++ b) = true.
Proof. destruct a; simpl; auto. Qed.

(* ------------------------------------------------------------------------- *)
(** * Invoking one provider *)

(** Claim C3, as the specification words it, fails: for the unavailable
    command-line agent named B the reason is "B CLI not available", not
    "B not available". *)
Lemma unavailable_reason_is_not_generic :
  value (query_agent no_locator (cli "B" false) "Q" 120)
  = ("B", "", Some "B CLI not available")
  /\ value (query_agent no_locator (cli "B" false) "Q" 120)
     <> ("B", "", Some "B not available").
Proof. split; [reflexivity | discriminate]. Qed.

(** Claim C3, amended: invoking an agent with [available = false] attempts no
    invocation (the trace is empty) and returns a failure whose reason is
    "<name> CLI not available" for a command-line agent and
    "<name> API key not configured" for an API agent; the round loop records
    such a reply as an error. *)
Theorem unavailable_agent_not_invoked env agent prompt timeout :
  available agent = false ->
  query_agent env agent prompt timeout
  = ([], (name agent, "",
          Some (name agent ++ (if is_api agent
                               then " API key not configured"
                               else " CLI not available"))))
  /\ error_set (snd (value (query_agent env agent prompt timeout))) <> None.
Proof.
  intros Ha. unfold query_agent. rewrite Ha. simpl.
  destruct (is_api agent); (split; [reflexivity|]); unfold value, ret; simpl;
    rewrite truthy_app_r; [discriminate|reflexivity|discriminate|reflexivity].
Qed.

Lemma unavailable_agent_not_invoked_witness :
  query_agent no_locator (cli "B" false) "Q" 120
  = ([], ("B", "", Some "B CLI not available"))
  /\ error_set (snd (value (query_agent no_locator (cli "B" false) "Q" 120)))
     <> None.
Proof.
  exact (unavailable_agent_not_invoked no_locator (cli "B" false) "Q" 120
           eq_refl).
Defined.

(** Claim C7: for an available command-line agent whose process ends with a
    non-zero exit status and a non-empty error stream, the reply carries no
    error; its text is the stripped standard output followed by the stripped
    error stream in the suffix "\n[stderr: ...]". *)
Theorem nonzero_exit_with_stderr_is_success
    env agent prompt timeout rc out err :
  available agent = true ->
  is_api agent = false ->
  subprocess_run env (command agent ++ [prompt])%list (Some timeout)
  = Completed rc out err ->
  rc <> 0 ->
  err <> "" ->
  query_agent env agent prompt timeout
  = ([Spawn (command agent ++ [prompt])%list (Some timeout)],
     (name agent, strip out ++ nl ++ "[stderr: " ++ strip err ++ "]", None)).
Proof.
  intros Ha Hapi Hrun Hrc Herr. unfold query_agent.
  rewrite Ha, Hapi, Hrun. simpl.
  apply Z.eqb_neq in Hrc. apply truthy_true in Herr.
  now rewrite Hrc, Herr.
Qed.

Lemma nonzero_exit_with_stderr_is_success_witness :
  query_agent (system (fun _ => Completed 1 " partial " "warning") 1 "A")
    (cli "A" true) "Q" 120
  = ([Spawn ["A"; "Q"] (Some 120)],
     ("A", "partial" ++ nl ++ "[stderr: warning]", None)).
Proof.
  apply (nonzero_exit_with_stderr_is_success
           (system (fun _ => Completed 1 " partial " "warning") 1 "A")
           (cli "A" true) "Q" 120 1 " partial " "warning");
    [reflexivity | reflexivity | reflexivity | lia | discriminate].
Defined.

(** Claim C8, as the specification words it, fails for the remote variant: a
    request that times out while connecting is raised by [urllib] as
    [URLError], the handler of [URLError] comes first, and the reason is
    "URL Error: timed out", not "Timeout after 30s". *)
Lemma remote_connect_timeout_reason :
  value (query_agent connect_timeout_api perplexity "Q" 30)
  = ("Perplexity", "", Some "URL Error: timed out")
  /\ value (query_agent connect_timeout_api perplexity "Q" 30)
     <> ("Perplexity", "", Some "Timeout after 30s").
Proof. split; [reflexivity | discriminate]. Qed.

(** Claim C8, amended: for an available agent, when the spawned process
    exceeds its timeout of [timeout] seconds, or when the request of the
    remote variant raises [TimeoutError], the reply is the failure with the
    reason "Timeout after <timeout>s"; when the request's timeout is reported
    by [urllib] as [URLError], the reply is the failure with the reason
    "URL Error: <reason>".  The round loop records both as errors. *)
Theorem timeout_reason env agent prompt timeout :
  available agent = true ->
  (invocation_raises_timeout env agent prompt timeout ->
   value (query_agent env agent prompt timeout)
   = (name agent, "", Some ("Timeout after " ++ of_int timeout ++ "s"))
   /\ error_set (snd (value (query_agent env agent prompt timeout)))
      = Some ("Timeout after " ++ of_int timeout ++ "s"))
  /\ (forall reason,
        is_api agent = true ->
        name agent = "Perplexity" ->
        request_timeout_as_url_error env prompt timeout reason ->
        value (query_agent env agent prompt timeout)
        = ("Perplexity", "", Some ("URL Error: " ++ reason))
        /\ error_set (snd (value (query_agent env agent prompt timeout)))
           = Some ("URL Error: " ++ reason)).
Proof.
  intros Ha. split.
  - intros Hto.
    enough (H : value (query_agent env agent prompt timeout)
                = (name agent, "",
                   Some ("Timeout after " ++ of_int timeout ++ "s")))
      by (split; [exact H | now rewrite H]).
    unfold invocation_raises_timeout in Hto.
    unfold query_agent, query_perplexity_api, value, bind, tell, ret.
    rewrite Ha. cbn [negb].
    destruct (is_api agent).
    + destruct Hto as (Hname & api_key & Hkey & Hne & Hurl).
      rewrite Hname, String.eqb_refl, Hkey.
      destruct api_key as [|c api_key]; [congruence|].
      rewrite Hurl. reflexivity.
    + rewrite Hto. reflexivity.
  - intros reason Hapi Hname (api_key & Hkey & Hne & Hurl).
    enough (H : value (query_agent env agent prompt timeout)
                = ("Perplexity", "", Some ("URL Error: " ++ reason)))
      by (split; [exact H | now rewrite H]).
    unfold query_agent, query_perplexity_api, value, bind, tell, ret.
    rewrite Ha, Hapi, Hname, String.eqb_refl, Hkey. cbn [negb].
    destruct api_key as [|c api_key]; [congruence|].
    rewrite Hurl. reflexivity.
Qed.

Lemma timeout_reason_witness :
  value (query_agent slow_api (cli "A" true) "Q" 120)
  = ("A", "", Some "Timeout after 120s")
  /\ value (query_agent slow_api perplexity "Q" 30)
     = ("Perplexity", "", Some "Timeout after 30s")
  /\ value (query_agent connect_timeout_api perplexity "Q" 30)
     = ("Perplexity", "", Some "URL Error: timed out").
Proof.
  split; [|split].
  - apply (proj1 (proj1 (timeout_reason slow_api (cli "A" true) "Q" 120
                           eq_refl) eq_refl)).
  - refine (proj1 (proj1 (timeout_reason slow_api perplexity "Q" 30 eq_refl)
                     _)).
    split; [reflexivity|]. exists "key".
    split; [reflexivity|]. split; [discriminate | reflexivity].
  - refine (proj1 (proj2 (timeout_reason connect_timeout_api perplexity "Q" 30
                            eq_refl) "timed out" eq_refl eq_refl _)).
    exists "key". split; [reflexivity|]. split; [discriminate | reflexivity].
Defined.

(* ------------------------------------------------------------------------- *)
(** * The readiness probe *)

(** When the locator program runs, the probe returns a boolean: [true] on
    exit status 0 and [false] otherwise. *)
Lemma check_cli_available_completed env command rc out err :
  subprocess_run env
    [if String.eqb (platform env) "win32" then "where" else "which"; command]
    None = Completed rc out err ->
  check_cli_available env command = Return (rc =? 0).
Proof.
  intros H. unfold check_cli_available, run_checked. rewrite H.
  now destruct (rc =? 0).
Qed.

(** Claim C9 does not hold of the code: the probe only catches
    [CalledProcessError].  On a system where the locator program itself cannot
    be started, [subprocess.run] raises [FileNotFoundError]; the probe lets it
    escape, and so does the registry construction. *)
Theorem check_cli_available_raises :
  check_cli_available no_locator "claude"
  = Raise (OtherError "[Errno 2] No such file or directory: 'which'")
  /\ get_agents no_locator
     = Raise (OtherError "[Errno 2] No such file or directory: 'which'").
Proof. split; reflexivity. Qed.

(* ------------------------------------------------------------------------- *)
(** * Selection and participants *)

Lemma filter_selected_effective agents selected :
  filter_selected agents selected
  = filter_selected agents (effective_selection selected).
Proof. now destruct selected as [[|s sel]|]. Qed.

Lemma effective_selection_not_empty selected :
  effective_selection selected <> Some [].
Proof. destruct selected as [[|s sel]|]; discriminate. Qed.

(** Claim C6, as the specification words it, fails on the explicitly empty
    selection: no provider is selected, so the set of selected providers that
    are available is empty, and yet the consultation is not refused; it runs
    over the available provider A. *)
Lemma empty_selection_is_not_refused :
  spec_participants scenario (Some []) = []
  /\ value (run_consultation answering in_submission_order "Q" scenario
              (Some []) 2 120)
     <> NoAgents "No AI agents available"
  /\ result_participants
       (value (run_consultation answering in_submission_order "Q" scenario
                 (Some []) 2 120)) = ["A"]
  /\ trace (run_consultation answering in_submission_order "Q" scenario
              (Some []) 2 120) <> [].
Proof. repeat split; try reflexivity; discriminate. Qed.

(** Claim C6, amended: the participants are the selected providers that are
    available, where an absent or explicitly empty selection selects every
    registered provider.  When that set is empty (in particular when every
    member of a non-empty selection is unavailable) the consultation returns
    the single top-level error without any invocation; otherwise it returns a
    report whose participants are exactly the selected keys that are
    available. *)
Theorem no_participants_or_intersection
    envs order q agents selected n_rounds timeout :
  (spec_participants agents (effective_selection selected) = [] ->
   run_consultation envs order q agents selected n_rounds timeout
   = ([], NoAgents "No AI agents available"))
  /\ (forall sel,
        selected = Some sel ->
        sel <> [] ->
        (forall k a, In k sel -> In (k, a) agents -> available a = false) ->
        run_consultation envs order q agents selected n_rounds timeout
        = ([], NoAgents "No AI agents available"))
  /\ (spec_participants agents (effective_selection selected) <> [] ->
      exists rep,
        value (run_consultation envs order q agents selected n_rounds timeout)
        = Report rep
        /\ participants rep
           = spec_participants agents (effective_selection selected)
        /\ forall k, In k (participants rep) <->
                     is_selected (effective_selection selected) k = true
                     /\ exists a, In (k, a) agents /\ available a = true).
Proof.
  assert (Hkeys : keys (filter_available (filter_selected agents selected))
                  = spec_participants agents (effective_selection selected)).
  { rewrite filter_selected_effective.
    apply filter_available_selected, effective_selection_not_empty. }
  assert (Hempty : spec_participants agents (effective_selection selected) = []
                   -> run_consultation envs order q agents selected n_rounds
                        timeout = ([], NoAgents "No AI agents available")).
  { intros H. apply run_consultation_refused.
    rewrite <- Hkeys in H. now apply map_eq_nil in H. }
  split; [exact Hempty|]. split.
  - intros sel -> Hsel Hall. apply Hempty.
    destruct sel as [|s sel]; [congruence|]. cbn [effective_selection].
    destruct (spec_participants agents (Some (s :: sel))) as [|k ks] eqn:E;
      [reflexivity|].
    assert (Hin : In k (spec_participants agents (Some (s :: sel))))
      by (rewrite E; now left).
    apply spec_participants_In in Hin. destruct Hin as (Hk & a & Hin & Ha).
    apply in_list_In in Hk. rewrite (Hall k a Hk Hin) in Ha. discriminate.
  - intros Hne. rewrite <- Hkeys in Hne.
    eexists. split.
    + apply run_consultation_report. intros E. apply Hne. now rewrite E.
    + cbn [participants]. rewrite Hkeys.
      split; [reflexivity|]. intros k. apply spec_participants_In.
Qed.

Lemma no_participants_or_intersection_witness :
  run_consultation answering in_submission_order "Q" scenario (Some ["B"]) 2 120
  = ([], NoAgents "No AI agents available")
  /\ (exists rep,
        value (run_consultation answering in_submission_order "Q" scenario
                 (Some ["A"; "B"]) 2 120) = Report rep
        /\ participants rep = ["A"])
  /\ (exists rep,
        value (run_consultation answering in_submission_order "Q" scenario
                 (Some []) 2 120) = Report rep
        /\ participants rep = ["A"]).
Proof.
  split; [|split].
  - apply (proj1 (proj2 (no_participants_or_intersection answering
                           in_submission_order "Q" scenario (Some ["B"]) 2
                           120)) ["B"] eq_refl); [discriminate|].
    intros k a [<-|[]] [E|[E|[]]];
      [discriminate E | injection E as <-; reflexivity].
  - destruct (proj2 (proj2 (no_participants_or_intersection answering
                              in_submission_order "Q" scenario
                              (Some ["A"; "B"]) 2 120)))
      as (rep & Hrep & Hp & _); [discriminate|].
    exists rep. split; [exact Hrep | exact Hp].
  - destruct (proj2 (proj2 (no_participants_or_intersection answering
                              in_submission_order "Q" scenario (Some []) 2
                              120)))
      as (rep & Hrep & Hp & _); [discriminate|].
    exists rep. split; [exact Hrep | exact Hp].
Defined.

(** Claim C10: an explicitly given but empty selection list behaves exactly as
    no selection: nothing is filtered, the participants are all available
    providers of the registry, and the run is refused only if the registry has
    no available provider at all. *)
Theorem empty_selection_is_no_selection envs order q agents n_rounds timeout :
  run_consultation envs order q agents (Some []) n_rounds timeout
  = run_consultation envs order q agents None n_rounds timeout
  /\ result_participants
       (value (run_consultation envs order q agents (Some []) n_rounds timeout))
     = all_available agents
  /\ ((exists k a, In (k, a) agents /\ available a = true) ->
      exists rep,
        value (run_consultation envs order q agents (Some []) n_rounds timeout)
        = Report rep
        /\ participants rep = all_available agents).
Proof.
  split; [reflexivity|].
  assert (Hrep : filter_available agents <> [] ->
                 value (run_consultation envs order q agents (Some [])
                          n_rounds timeout)
                 = Report
                     {| question := q;
                        rounds := map (result_of_round envs order q
                                         (filter_available agents) timeout)
                                      (seq 1 (Z.to_nat n_rounds));
                        participants := all_available agents;
                        unavailable :=
                          keys (filter (fun '(_, v) => negb (available v))
                                  agents) |}).
  { intros Hne. now apply (run_consultation_report envs order q agents (Some [])). }
  split.
  - destruct (filter_available agents) as [|a rest] eqn:E.
    + rewrite run_consultation_refused by exact E.
      unfold all_available. now rewrite E.
    + rewrite <- E in *. rewrite Hrep; [reflexivity|]. rewrite E. discriminate.
  - intros (k & a & Hin & Ha). eexists. split; [apply Hrep | reflexivity].
    intros E.
    assert (H : In (k, a) (filter_available agents))
      by (apply filter_In; split; assumption).
    now rewrite E in H.
Qed.

Lemma empty_selection_is_no_selection_witness :
  exists rep,
    value (run_consultation answering in_submission_order "Q" scenario
             (Some []) 2 120) = Report rep
    /\ participants rep = ["A"].
Proof.
  destruct (empty_selection_is_no_selection answering in_submission_order "Q"
              scenario 2 120) as (_ & _ & H).
  apply H. exists "A", (cli "A" true). split; [now left | reflexivity].
Defined.

(* ------------------------------------------------------------------------- *)
(** * Round results *)

Lemma In_rounds_succ envs order q agents timeout n rr :
  In rr (map (result_of_round envs order q agents timeout) (seq 1 n)) ->
  exists k, (k < n)%nat /\ rr = result_of_round envs order q agents timeout (S k).
Proof.
  intros H. apply in_map_iff in H. destruct H as (j & <- & Hj).
  apply in_seq in Hj. destruct j as [|j]; [lia|].
  exists j. split; [lia | reflexivity].
Qed.

Lemma map_round_rounds envs order q agents timeout n :
  map round (map (result_of_round envs order q agents timeout) (seq 1 n))
  = map Z.of_nat (seq 1 n).
Proof.
  rewrite map_map. apply map_ext_in. intros j Hj.
  apply in_seq in Hj. destruct j as [|j]; [lia|]. apply round_of_result.
Qed.

(** Claim C2, as the specification words it, fails: in the scenario the two
    round results hold A's answer only; B has no entry in any round and is
    listed under [unavailable] instead. *)
Lemma unavailable_provider_has_no_round_entry :
  value (run_consultation answering in_submission_order "Q" scenario None 2 120)
  = Report
      {| question := "Q";
         rounds := [ {| round := 1; responses := [("A", "a1")]; errors := [] |};
                     {| round := 2; responses := [("A", "a2")]; errors := [] |} ];
         participants := ["A"];
         unavailable := ["B"] |}
  /\ ~ (forall rep,
          value (run_consultation answering in_submission_order "Q" scenario
                   None 2 120) = Report rep ->
          forall rr, In rr (rounds rep) ->
                     get "B" (errors rr) = Some "B not available").
Proof.
  split; [reflexivity|].
  intros H. specialize (H _ eq_refl _ (or_introl eq_refl)). discriminate.
Qed.

(** Claim C2, amended: in a consultation over providers A (available) and B
    (unavailable) with two rounds, the report lists A's key as the only
    participant and B's key under [unavailable]; each of the two round results
    holds exactly one entry, A's outcome, and no entry for B, neither a
    response nor an error: an unavailable provider is never queried. *)
Theorem unavailable_provider_listed_not_queried
    envs order q kA kB A B timeout :
  available A = true ->
  available B = false ->
  name B <> name A ->
  exists r1 r2,
    value (run_consultation envs order q [(kA, A); (kB, B)] None 2 timeout)
    = Report {| question := q; rounds := [r1; r2];
                participants := [kA]; unavailable := [kB] |}
    /\ round r1 = 1 /\ round r2 = 2
    /\ forall rr, In rr [r1; r2] ->
         (keys (responses rr) ++ keys (errors rr))%list = [name A]
         /\ get (name B) (responses rr) = None
         /\ get (name B) (errors rr) = None.
Proof.
  intros Ha Hb Hname.
  assert (Hav : filter_available (filter_selected [(kA, A); (kB, B)] None)
                = [(kA, A)]).
  { unfold filter_available. simpl. now rewrite Ha, Hb. }
  exists (result_of_round envs order q [(kA, A)] timeout 1),
         (result_of_round envs order q [(kA, A)] timeout 2).
  split.
  - rewrite run_consultation_report; rewrite Hav; [|discriminate].
    simpl. now rewrite Ha, Hb.
  - split; [apply round_of_result|]. split; [apply round_of_result|].
    assert (Hkeys : forall k,
              (keys (responses (result_of_round envs order q [(kA, A)] timeout
                                  (S k)))
               ++ keys (errors (result_of_round envs order q [(kA, A)] timeout
                                  (S k))))%list = [name A]).
    { intros k. apply Permutation_length_1_inv. symmetry.
      apply (round_keys_perm envs order q [(kA, A)] timeout k).
      simpl. constructor; [tauto | constructor]. }
    intros rr Hrr.
    assert (Hk : exists k, rr = result_of_round envs order q [(kA, A)] timeout
                                  (S k)).
    { destruct Hrr as [<-|[<-|[]]]; [now exists 0%nat | now exists 1%nat]. }
    destruct Hk as [k ->]. split; [apply Hkeys|].
    split; apply get_None_keys; intros Hin.
    + assert (H : In (name B) [name A])
        by (rewrite <- (Hkeys k); apply in_or_app; now left).
      destruct H as [H|[]]. congruence.
    + assert (H : In (name B) [name A])
        by (rewrite <- (Hkeys k); apply in_or_app; now right).
      destruct H as [H|[]]. congruence.
Qed.

Lemma unavailable_provider_listed_not_queried_witness :
  exists r1 r2,
    value (run_consultation answering in_submission_order "Q" scenario None
             2 120)
    = Report {| question := "Q"; rounds := [r1; r2];
                participants := ["A"]; unavailable := ["B"] |}
    /\ round r1 = 1 /\ round r2 = 2
    /\ forall rr, In rr [r1; r2] ->
         (keys (responses rr) ++ keys (errors rr))%list = ["A"]
         /\ get "B" (responses rr) = None
         /\ get "B" (errors rr) = None.
Proof.
  apply (unavailable_provider_listed_not_queried answering in_submission_order
           "Q" "A" "B" (cli "A" true) (cli "B" false) 120);
    [reflexivity | reflexivity | discriminate].
Defined.

(** Claim C4, as the specification words it, fails: the round results are keyed
    by the agents' display names, the participant list holds the registry
    keys.  For the script's own entry for Claude the round is keyed "Claude"
    and the participant is "claude". *)
Lemma round_keys_are_not_participant_keys :
  value (run_consultation answering in_submission_order "Q" claude_only None
           1 120)
  = Report
      {| question := "Q";
         rounds := [ {| round := 1; responses := [("Claude", "a1")];
                        errors := [] |} ];
         participants := ["claude"];
         unavailable := [] |}
  /\ ~ (forall rep,
          value (run_consultation answering in_submission_order "Q"
                   claude_only None 1 120) = Report rep ->
          forall rr, In rr (rounds rep) ->
            Permutation (keys (responses rr) ++ keys (errors rr))%list
                        (participants rep)).
Proof.
  split; [reflexivity|].
  intros H. specialize (H _ eq_refl _ (or_introl eq_refl)).
  apply Permutation_length_1_inv in H. discriminate.
Qed.

(** Claim C4, amended: for [n_rounds > 0] and a non-empty participant set, the
    report holds exactly [n_rounds] round results, numbered 1, 2, ... in
    order; every round result is keyed (responses and errors together) by
    exactly the display names of the participants fixed before round 1; and
    when these names are pairwise distinct, every participant's name occurs
    exactly once in every round, none duplicated and none missing. *)
Theorem report_rounds_keyed_by_names
    envs order q agents selected n_rounds timeout :
  0 < n_rounds ->
  filter_available (filter_selected agents selected) <> [] ->
  exists rep,
    value (run_consultation envs order q agents selected n_rounds timeout)
    = Report rep
    /\ participants rep
       = keys (filter_available (filter_selected agents selected))
    /\ Z.of_nat (List.length (rounds rep)) = n_rounds
    /\ map round (rounds rep) = range 1 (n_rounds + 1)
    /\ forall rr, In rr (rounds rep) ->
         (forall n,
            In n (keys (responses rr) ++ keys (errors rr))%list <->
            In n (names (filter_available (filter_selected agents selected))))
         /\ (NoDup (names (filter_available (filter_selected agents selected)))
             -> Permutation
                  (keys (responses rr) ++ keys (errors rr))%list
                  (names (filter_available (filter_selected agents selected)))
                /\ NoDup (keys (responses rr) ++ keys (errors rr))%list).
Proof.
  intros Hpos Hne. eexists. split; [now apply run_consultation_report|].
  cbn [participants rounds]. split; [reflexivity|].
  split; [rewrite length_map, length_seq; lia|].
  split; [rewrite map_round_rounds, range_to_nat; symmetry; apply range_eq|].
  intros rr Hrr. apply In_rounds_succ in Hrr. destruct Hrr as (k & _ & ->).
  split; [intros n; apply round_keys_In|].
  intros Hnd.
  assert (Hp := round_keys_perm envs order q _ timeout k Hnd).
  split; [exact Hp|].
  eapply Permutation_NoDup; [symmetry; exact Hp | exact Hnd].
Qed.

Lemma report_rounds_keyed_by_names_witness :
  exists rep,
    value (run_consultation answering in_submission_order "Q" scenario None
             2 120) = Report rep
    /\ participants rep = ["A"]
    /\ Z.of_nat (List.length (rounds rep)) = 2
    /\ map round (rounds rep) = [1; 2].
Proof.
  destruct (report_rounds_keyed_by_names answering in_submission_order "Q"
              scenario None 2 120) as (rep & H1 & H2 & H3 & H4 & _);
    [lia | discriminate |].
  exists rep. repeat split; assumption.
Defined.

(* ------------------------------------------------------------------------- *)
(** * The transcript *)

Section Transcript.

Variable envs : Z -> string -> Env.
Variable order : Z -> list nat.
Variable question_text : string.
Variable available_agents : dict AIAgent.
Variable timeout : Z.

Local Abbreviation before :=
  (transcript_before envs order question_text available_agents timeout).
Local Abbreviation after :=
  (transcript_after envs order question_text available_agents timeout).
Local Abbreviation result :=
  (result_of_round envs order question_text available_agents timeout).
Local Abbreviation prompt :=
  (prompt_of_round envs order question_text available_agents timeout).
Local Abbreviation latest :=
  (latest_success envs order question_text available_agents timeout).
Local Abbreviation blocks :=
  (rendered_blocks envs order question_text available_agents timeout).

Lemma latest_success_origin k n t :
  latest k n = Some t ->
  exists j, (1 <= j <= k)%nat /\ get n (responses (result j)) = Some t.
Proof.
  induction k as [|k IH]; [discriminate|]. cbn [latest_success].
  destruct (get n (responses (result (S k)))) as [u|] eqn:E.
  - intros [= ->]. exists (S k). split; [lia | exact E].
  - intros H. destruct (IH H) as (j & Hj & Hget). exists j. split; [lia|auto].
Qed.

(** A recorded response of round [k+1] is the reply, free of error, that
    [query_agent] gave for some participant on that round's prompt. *)
Lemma response_origin k n t :
  get n (responses (result (S k))) = Some t ->
  exists key agent e,
    In (key, agent) available_agents
    /\ value (query_agent (envs (Z.of_nat (S k)) key) agent (prompt (S k))
                timeout) = (n, t, e)
    /\ error_set e = None.
Proof.
  rewrite result_of_round_succ. intros H.
  apply record_reply_responses in H. destruct H as [H|(e & Hin & He)];
    [discriminate|].
  apply replies_origin in Hin. destruct Hin as (key & agent & Hin & Hr).
  exists key, agent, e. repeat split; auto.
Qed.

(** The transcript after round [k+1], read through the round's own
    [responses]: a name recorded there has that text, any other name keeps its
    entry; the keys keep their order; a name is in the transcript only after a
    round recorded it; and no entry is ever removed. *)
Lemma transcript_after_round k :
  (forall n, get n (after (S k))
             = match get n (responses (result (S k))) with
               | Some t => Some t
               | None => get n (before (S k))
               end)
  /\ (forall n t,
        get n (responses (result (S k))) = Some t ->
        exists key agent e,
          In (key, agent) available_agents
          /\ value (query_agent (envs (Z.of_nat (S k)) key) agent
                      (prompt (S k)) timeout) = (n, t, e)
          /\ error_set e = None)
  /\ (forall n, get n (responses (result (S k))) = None ->
                get n (after (S k)) = get n (before (S k)))
  /\ (forall n, mem n (after (S k)) = true ->
                exists j, (1 <= j <= S k)%nat
                          /\ mem n (responses (result j)) = true)
  /\ (forall n, mem n (before (S k)) = true -> mem n (after (S k)) = true)
  /\ (exists new, keys (after (S k)) = (keys (before (S k)) ++ new)%list).
Proof.
  assert (Hupd : forall n, get n (after (S k))
                           = match get n (responses (result (S k))) with
                             | Some t => Some t
                             | None => get n (before (S k))
                             end).
  { intros n. rewrite transcript_after_succ, result_of_round_succ.
    now apply record_reply_transcript. }
  split; [exact Hupd|]. split; [apply response_origin|].
  split; [intros n Hn; now rewrite Hupd, Hn|]. split; [|split].
  - intros n Hn. apply mem_get in Hn.
    destruct (get n (after (S k))) as [t|] eqn:E; [|congruence].
    rewrite transcript_latest in E.
    destruct (latest_success_origin _ _ _ E) as (j & Hj & Hget).
    exists j. split; [exact Hj|]. apply mem_get. congruence.
  - intros n Hn. apply mem_get in Hn. apply mem_get. rewrite Hupd.
    now destruct (get n (responses (result (S k)))).
  - rewrite transcript_after_succ. apply record_reply_keys_order.
Qed.

Lemma rendered_blocks_spec k n t :
  In (n, t) (blocks (S k)) <-> latest k n = Some t /\ t <> "".
Proof.
  unfold rendered_blocks. rewrite filter_In, truthy_true.
  change (before (S k)) with (after k). rewrite <- transcript_latest.
  split; intros [H1 H2]; (split; [|assumption]).
  - apply In_get; [apply transcript_NoDup | assumption].
  - now apply get_Some_In.
Qed.

Lemma Substring_block_name n t : Substring n (block n t).
Proof. exists "--- ", (" ---" ++ nl ++ t ++ nl). reflexivity. Qed.


End Transcript.



(* ------------------------------------------------------------------------- *)
(** * Further properties: one invocation *)

Lemma trace_bind {A B} (m : M A) (f : A -> M B) :
  trace (bind m f) = (trace m ++ trace (f (value m)))%list.
Proof.
  unfold bind, trace, value. destruct m as [t a]. simpl. now destruct (f a).
Qed.

Lemma error_set_Some e msg :
  error_set e = Some msg <-> e = Some msg /\ msg <> "".
Proof.
  unfold error_set. destruct e as [[|c s]|]; simpl; split.
  - discriminate.
  - intros [[= <-] H]. congruence.
  - intros [= <-]. split; [reflexivity | discriminate].
  - intros [[= <-] _]. reflexivity.
  - discriminate.
  - intros [H _]. discriminate.
Qed.

Lemma error_reply_has_no_text env agent prompt timeout :
  snd (value (query_agent env agent prompt timeout)) = None
  \/ snd (fst (value (query_agent env agent prompt timeout))) = "".
Proof.
  unfold query_agent, query_perplexity_api, value, bind, tell, ret.
  destruct (available agent), (is_api agent); simpl; auto.
  - destruct (String.eqb (name agent) "Perplexity"); simpl; auto.
    destruct (getenv env "PERPLEXITY_API_KEY") as [[|c k]|]; simpl; auto.
    destruct (urlopen _ _ _ _ _) as [[o|] w| | | |]; simpl; auto.
  - destruct (subprocess_run _ _ _); simpl; auto.
Qed.

(** A reply always carries the queried agent's name, and a reply that carries
    an error (even the empty one) has the empty text. *)
Theorem reply_shape env agent prompt timeout :
  fst (fst (value (query_agent env agent prompt timeout))) = name agent
  /\ (snd (value (query_agent env agent prompt timeout)) = None
      \/ snd (fst (value (query_agent env agent prompt timeout))) = "").
Proof.
  split; [apply query_agent_name | apply error_reply_has_no_text].
Qed.

Lemma trace_query_agent env agent prompt timeout :
  trace (query_agent env agent prompt timeout) =
  if negb (available agent) then []
  else if is_api agent then
    if String.eqb (name agent) "Perplexity" && check_perplexity_available env
    then [HttpPost "https://api.perplexity.ai/v1/responses" prompt timeout]
    else []
  else [Spawn (command agent ++ [prompt])%list (Some timeout)].
Proof.
  unfold query_agent, query_perplexity_api, check_perplexity_available,
    trace, bind, tell, ret.
  destruct (available agent), (is_api agent); simpl; auto.
  - destruct (String.eqb (name agent) "Perplexity"); simpl; auto.
    destruct (getenv env "PERPLEXITY_API_KEY") as [[|c k]|]; simpl; auto.
    destruct (urlopen _ _ _ _ _) as [[o|] w| | | |]; reflexivity.
  - destruct (subprocess_run _ _ _); reflexivity.
Qed.

(** One call makes at most one invocation attempt, fixed by the agent alone
    and not by the outcome: a spawn of the agent's command followed by the
    prompt for an available command-line agent, one POST of the prompt for the
    available Perplexity agent when the API key is set, and nothing otherwise.
    The configured timeout is the one passed on. *)
Theorem one_attempt_per_call env agent prompt timeout :
  trace (query_agent env agent prompt timeout) =
  if negb (available agent) then []
  else if is_api agent then
    if String.eqb (name agent) "Perplexity" && check_perplexity_available env
    then [HttpPost "https://api.perplexity.ai/v1/responses" prompt timeout]
    else []
  else [Spawn (command agent ++ [prompt])%list (Some timeout)].
Proof.
  unfold query_agent, trace. destruct (available agent); [|now destruct (is_api agent)].
  cbn [negb]. destruct (is_api agent).
  - destruct (String.eqb (name agent) "Perplexity"); [|reflexivity].
    fold (trace (query_perplexity_api env prompt timeout)).
    unfold query_perplexity_api, check_perplexity_available, trace, bind, tell,
      ret.
    destruct (getenv env "PERPLEXITY_API_KEY") as [[|c k]|]; try reflexivity.
    destruct (urlopen _ _ _ _ _) as [[o|] w| | | |]; reflexivity.
  - unfold bind, tell, ret.
    destruct (subprocess_run _ _ _); reflexivity.
Qed.

(** For an available agent the reply is free of error exactly when the
    invocation completed: the process ran to its end, whatever its exit
    status, or the request was answered. *)
Theorem reply_ok_iff_completed env agent prompt timeout :
  available agent = true ->
  (snd (value (query_agent env agent prompt timeout)) = None <->
   (is_api agent = false
    /\ exists rc out err,
         subprocess_run env (command agent ++ [prompt])%list (Some timeout)
         = Completed rc out err)
   \/ (is_api agent = true
       /\ name agent = "Perplexity"
       /\ exists api_key o w,
            getenv env "PERPLEXITY_API_KEY" = Some api_key
            /\ api_key <> ""
            /\ urlopen env "https://api.perplexity.ai/v1/responses" api_key
                 prompt timeout = Responded o w)).
Proof.
  intros Ha.
  unfold query_agent, query_perplexity_api, value, bind, tell, ret.
  rewrite Ha. cbn [negb]. destruct (is_api agent).
  - destruct (String.eqb_spec (name agent) "Perplexity") as [E|NE].
    + destruct (getenv env "PERPLEXITY_API_KEY") as [[|c k]|] eqn:Hk.
      * simpl. split; [discriminate|].
        intros [[H _]|(_ & _ & k' & o & w & Hk' & Hne & _)];
          [discriminate | congruence].
      * destruct (urlopen env _ (String c k) prompt timeout)
          as [o w| | | |] eqn:Hu.
        -- destruct o as [o|]; simpl; (split; [intros _|reflexivity]);
             right; repeat split; try assumption;
             exists (String c k); eexists; eexists;
             (split; [reflexivity|]); (split; [discriminate | exact Hu]).
        -- simpl. split; [discriminate|].
           intros [[H _]|(_ & _ & k' & o' & w' & Hk' & _ & Hu')];
             [discriminate | injection Hk' as <-; congruence].
        -- simpl. split; [discriminate|].
           intros [[H _]|(_ & _ & k' & o' & w' & Hk' & _ & Hu')];
             [discriminate | injection Hk' as <-; congruence].
        -- simpl. split; [discriminate|].
           intros [[H _]|(_ & _ & k' & o' & w' & Hk' & _ & Hu')];
             [discriminate | injection Hk' as <-; congruence].
        -- simpl. split; [discriminate|].
           intros [[H _]|(_ & _ & k' & o' & w' & Hk' & _ & Hu')];
             [discriminate | injection Hk' as <-; congruence].
      * simpl. split; [discriminate|].
        intros [[H _]|(_ & _ & k' & o & w & Hk' & _)];
          [discriminate | congruence].
    + simpl. split; [discriminate|].
      intros [[H _]|(_ & H & _)]; [discriminate | contradiction].
  - destruct (subprocess_run env _ _) as [rc out err| |] eqn:Hr; simpl.
    + split; [|reflexivity]. intros _. left. split; [reflexivity|].
      now exists rc, out, err.
    + split; [discriminate|].
      intros [(_ & rc & out & err & H)|[H _]]; discriminate.
    + split; [discriminate|].
      intros [(_ & rc & out & err & H)|[H _]]; discriminate.
Qed.

Lemma reply_ok_iff_completed_witness :
  snd (value (query_agent (system (fun _ => Completed 3 "" "") 1 "A")
                (cli "A" true) "Q" 120)) = None
  /\ snd (value (query_agent healthy perplexity "Q" 120)) = None.
Proof.
  split.
  - apply (reply_ok_iff_completed (system (fun _ => Completed 3 "" "") 1 "A")
             (cli "A" true) "Q" 120); [reflexivity|].
    left. split; [reflexivity|]. now exists 3, "", "".
  - apply (reply_ok_iff_completed healthy perplexity "Q" 120); [reflexivity|].
    right. split; [reflexivity|]. split; [reflexivity|].
    exists "key", (Some "pong"), "{'output': 'pong'}".
    split; [reflexivity|]. split; [discriminate | reflexivity].
Defined.

(** The availability check of Perplexity and the guard inside the query agree:
    when the check is false the query fails with the missing-key reason and
    sends nothing; when it is true exactly one request is sent. *)
Theorem perplexity_guard_agrees env prompt timeout :
  if check_perplexity_available env
  then trace (query_perplexity_api env prompt timeout)
       = [HttpPost "https://api.perplexity.ai/v1/responses" prompt timeout]
  else query_perplexity_api env prompt timeout
       = ([], ("Perplexity", "", Some "PERPLEXITY_API_KEY not set")).
Proof.
  unfold check_perplexity_available, query_perplexity_api, trace, bind, tell,
    ret.
  destruct (getenv env "PERPLEXITY_API_KEY") as [[|c k]|]; simpl; auto.
  destruct (urlopen _ _ _ _ _) as [[o|] w| | | |]; reflexivity.
Qed.

(* ------------------------------------------------------------------------- *)
(** * Further properties: the registry *)

(** The probe never lets [CalledProcessError] escape, and the output of the
    locator program plays no role: only its exit status is looked at. *)
Theorem probe_swallows_called_process_error env command :
  (forall rc, check_cli_available env command <> Raise (CalledProcessError rc))
  /\ (forall rc out err,
        subprocess_run env
          [if String.eqb (platform env) "win32" then "where" else "which";
           command] None = Completed rc out err ->
        check_cli_available env command = Return (rc =? 0)).
Proof.
  split.
  - intros rc. unfold check_cli_available, run_checked.
    destruct (subprocess_run _ _ _) as [rc' out err| |];
      [destruct (rc' =? 0)|..]; discriminate.
  - intros rc out err. apply check_cli_available_completed.
Qed.

Lemma probe_swallows_called_process_error_witness :
  check_cli_available bare "claude" = Return false
  /\ check_cli_available healthy "claude" = Return true.
Proof.
  split.
  - apply (proj2 (probe_swallows_called_process_error bare "claude")
             1 "" "not found"). reflexivity.
  - apply (proj2 (probe_swallows_called_process_error healthy "claude")
             0 ("pong" ++ nl) ""). reflexivity.
Defined.

Lemma NoDup_names_filter (f : string * AIAgent -> bool) (agents : dict AIAgent) :
  NoDup (names agents) -> NoDup (names (filter f agents)).
Proof.
  unfold names. induction agents as [|[k a] agents IH]; simpl; [auto|].
  intros Hnd. inversion Hnd as [|? ? Hnotin Hnd']; subst.
  destruct (f (k, a)); simpl; [|auto].
  constructor; [|auto]. intros Hin. apply Hnotin.
  apply in_map_iff in Hin. destruct Hin as ([k' a'] & E & Hin).
  apply filter_In in Hin. destruct Hin as [Hin _].
  apply in_map_iff. now exists (k', a').
Qed.

Lemma registry_names_NoDup env agents :
  get_agents env = Return agents -> NoDup (names agents).
Proof.
  unfold get_agents.
  destruct (check_cli_available env "claude") as [c|]; [|discriminate].
  destruct (check_cli_available env "gemini") as [g|]; [|discriminate].
  destruct (check_cli_available env "codex") as [x|]; [|discriminate].
  intros [= <-]. simpl. repeat constructor; simpl; intuition discriminate.
Qed.

(** When the registry is built, it has the four keys in a fixed order, the
    display names are pairwise distinct, only the entry of key "perplexity" is
    an API agent, and every availability flag is what the corresponding
    probe returned on that system. *)
Theorem registry_shape env agents :
  get_agents env = Return agents ->
  keys agents = ["claude"; "gemini"; "codex"; "perplexity"]
  /\ names agents = ["Claude"; "Gemini"; "Codex"; "Perplexity"]
  /\ NoDup (names agents)
  /\ (forall k a, In (k, a) agents ->
        if is_api a
        then k = "perplexity" /\ name a = "Perplexity"
             /\ available a = check_perplexity_available env
        else check_cli_available env k = Return (available a)).
Proof.
  unfold get_agents.
  destruct (check_cli_available env "claude") as [c|] eqn:Hc; [|discriminate].
  destruct (check_cli_available env "gemini") as [g|] eqn:Hg; [|discriminate].
  destruct (check_cli_available env "codex") as [x|] eqn:Hx; [|discriminate].
  intros [= <-]. split; [reflexivity|]. split; [reflexivity|]. split.
  - simpl. repeat constructor; simpl; intuition discriminate.
  - intros k a [E|[E|[E|[E|[]]]]]; injection E as <- <-; simpl; auto.
Qed.

Lemma registry_shape_witness :
  exists agents,
    get_agents bare = Return agents
    /\ keys agents = ["claude"; "gemini"; "codex"; "perplexity"]
    /\ NoDup (names agents).
Proof.
  eexists. split; [reflexivity|].
  destruct (registry_shape bare _ eq_refl) as (H1 & _ & H3 & _).
  split; [exact H1 | exact H3].
Defined.

(** Building the registry fails exactly when one of the three probes raises,
    and then with that probe's exception. *)
Theorem registry_fails_with_probe env e :
  get_agents env = Raise e <->
  check_cli_available env "claude" = Raise e
  \/ (exists b, check_cli_available env "claude" = Return b)
     /\ (check_cli_available env "gemini" = Raise e
         \/ (exists b, check_cli_available env "gemini" = Return b)
            /\ check_cli_available env "codex" = Raise e).
Proof.
  unfold get_agents.
  destruct (check_cli_available env "claude") as [c|e1].
  - destruct (check_cli_available env "gemini") as [g|e2].
    + destruct (check_cli_available env "codex") as [x|e3].
      * split; [discriminate|].
        intros [H|(_ & [H|(_ & H)])]; discriminate.
      * split.
        -- intros [= ->]. right. split; [eauto|]. right. split; [eauto|auto].
        -- intros [H|(_ & [H|(_ & H)])]; try discriminate.
           now injection H as ->.
    + split.
      * intros [= ->]. right. split; [eauto|]. now left.
      * intros [H|(_ & [H|((b & H) & _)])]; try discriminate.
        now injection H as ->.
  - split.
    + intros [= ->]. now left.
    + intros [H|((b & H) & _)]; [now injection H as -> | discriminate].
Qed.

Lemma registry_fails_with_probe_witness :
  get_agents no_locator
  = Raise (OtherError "[Errno 2] No such file or directory: 'which'").
Proof.
  apply (proj2 (registry_fails_with_probe no_locator
                  (OtherError "[Errno 2] No such file or directory: 'which'"))).
  left. reflexivity.
Defined.

(* ------------------------------------------------------------------------- *)
(** * Further properties: prompts *)

(** Every prompt, of whatever round and transcript, contains the question
    verbatim behind the label "Question: ". *)
Theorem question_in_every_prompt round_num q T :
  Substring ("Question: " ++ q) (build_prompt round_num q T).
Proof.
  unfold build_prompt. destruct (round_num =? 1).
  - exists ("You are participating in a multi-AI consultation. "
            ++ "Answer the following question thoughtfully and concisely (2-3 paragraphs)."
            ++ nl ++ nl), "".
    rewrite append_nil_r. reflexivity.
  - exists ("You are participating in a multi-AI consultation. "
            ++ "Here is the question and responses from the previous round:"
            ++ nl ++ nl),
           (nl ++ nl ++ "Previous responses:" ++ nl
            ++ format_previous_responses T ++ later_round_tail).
    rewrite append_assoc. reflexivity.
Qed.

Lemma concat_snoc sep (l : list string) (x y : string) :
  String.concat sep ((y :: l) ++ [x])%list
  = String.concat sep (y :: l) ++ sep ++ x.
Proof.
  revert y. induction l as [|z l IH]; intros y.
  - reflexivity.
  - change (y ++ sep ++ String.concat sep ((z :: l) ++ [x])
            = (y ++ sep ++ String.concat sep (z :: l)) ++ sep ++ x).
    now rewrite IH, !append_assoc.
Qed.

(** Appending an entry to the transcript leaves the formatted text unchanged
    when its text is empty; otherwise it appends the entry's block, separated
    by a newline from the blocks before it, if any. *)
Theorem format_snoc (T : dict string) n t :
  format_previous_responses (T ++ [(n, t)])%list =
  if truthy t then
    match filter (fun '(_, response) => truthy response) T with
    | [] => block n t
    | _ :: _ => format_previous_responses T ++ nl ++ block n t
    end
  else format_previous_responses T.
Proof.
  unfold format_previous_responses, join. rewrite filter_app. simpl.
  destruct (truthy t).
  - rewrite map_app. simpl.
    destruct (filter (fun '(_, response) => truthy response) T) as [|[m u] F];
      [reflexivity|].
    apply concat_snoc.
  - now rewrite app_nil_r.
Qed.

(** A transcript without a non-empty text is formatted as the empty string:
    the later-round prompt then keeps its "Previous responses:" heading with
    nothing under it. *)
Theorem format_nothing_to_show round_num q T :
  (forall n t, In (n, t) T -> t = "") ->
  round_num <> 1 ->
  format_previous_responses T = ""
  /\ build_prompt round_num q T
     = later_round_head ++ q ++ nl ++ nl ++ "Previous responses:" ++ nl
       ++ later_round_tail.
Proof.
  intros Hall Hr.
  assert (Hf : format_previous_responses T = "").
  { unfold format_previous_responses.
    replace (filter (fun '(_, response) => truthy response) T)
      with (@nil (string * string)); [reflexivity|].
    symmetry. induction T as [|[n t] T IH]; [reflexivity|]. simpl.
    rewrite (Hall n t) by now left. simpl. apply IH.
    intros n' t' Hin. apply (Hall n' t'). now right. }
  split; [exact Hf|]. unfold build_prompt.
  apply Z.eqb_neq in Hr. now rewrite Hr, Hf.
Qed.

Lemma format_nothing_to_show_witness :
  format_previous_responses [("Claude", ""); ("Gemini", "")] = ""
  /\ build_prompt 2 "Q" [("Claude", ""); ("Gemini", "")]
     = later_round_head ++ "Q" ++ nl ++ nl ++ "Previous responses:" ++ nl
       ++ later_round_tail.
Proof.
  apply (format_nothing_to_show 2 "Q" [("Claude", ""); ("Gemini", "")]).
  - intros n t [E|[E|[]]]; now injection E as <- <-.
  - lia.
Defined.

(** *** Rounds without a Success *)

Lemma set_not_nil {V} k (v : V) d : set k v d <> [].
Proof. destruct d as [|[k' v'] d]; simpl; [|destruct (String.eqb k k')]; discriminate. Qed.

Lemma record_reply_responses_grow rs rr T :
  responses rr <> [] ->
  responses (fst (fold_left record_reply rs (rr, T))) <> [].
Proof.
  revert rr T. induction rs as [|[[a t] e] rs IH]; intros rr T H; simpl;
    [exact H|].
  destruct (error_set e); apply IH; simpl; [exact H | apply set_not_nil].
Qed.

(** A round that records no response leaves the transcript as it is, key
    order included. *)
Lemma no_response_keeps_transcript rs rr T :
  responses (fst (fold_left record_reply rs (rr, T))) = [] ->
  snd (fold_left record_reply rs (rr, T)) = T.
Proof.
  revert rr T. induction rs as [|[[a t] e] rs IH]; intros rr T; simpl;
    [reflexivity|].
  destruct (error_set e).
  - apply IH.
  - intros H. exfalso. revert H. apply record_reply_responses_grow. simpl.
    apply set_not_nil.
Qed.

(** If round [k+2] records no response, round [k+3] is sent the very same
    prompt as round [k+2]: failures change nothing in what is asked. *)
Theorem prompt_repeats_after_failed_round
    envs order q agents timeout k :
  responses (result_of_round envs order q agents timeout (S (S k))) = [] ->
  prompt_of_round envs order q agents timeout (S (S (S k)))
  = prompt_of_round envs order q agents timeout (S (S k)).
Proof.
  intros H. unfold prompt_of_round, build_prompt.
  replace (Z.of_nat (S (S (S k))) =? 1) with false
    by (symmetry; apply Z.eqb_neq; lia).
  replace (Z.of_nat (S (S k)) =? 1) with false
    by (symmetry; apply Z.eqb_neq; lia).
  change (transcript_before envs order q agents timeout (S (S (S k))))
    with (transcript_after envs order q agents timeout (S (S k))).
  change (transcript_before envs order q agents timeout (S (S k)))
    with (transcript_after envs order q agents timeout (S k)).
  rewrite (transcript_after_succ envs order q agents timeout (S k)).
  rewrite result_of_round_succ in H.
  now rewrite (no_response_keeps_transcript _ _ _ H).
Qed.

Lemma prompt_repeats_after_failed_round_witness :
  prompt_of_round (system (fun r => if r =? 1 then Completed 0 "a1" ""
                                    else RunTimeoutExpired))
    in_submission_order "Q" scenario 120 3
  = prompt_of_round (system (fun r => if r =? 1 then Completed 0 "a1" ""
                                      else RunTimeoutExpired))
      in_submission_order "Q" scenario 120 2.
Proof.
  apply (prompt_repeats_after_failed_round
           (system (fun r => if r =? 1 then Completed 0 "a1" ""
                             else RunTimeoutExpired))
           in_submission_order "Q" scenario 120 0).
  reflexivity.
Defined.

(* ------------------------------------------------------------------------- *)
(** * Further properties: the invocations of a run *)

Lemma trace_submit_all {A B} (f : A -> M B) (l : list A) :
  trace (submit_all f l) = flat_map (fun x => trace (f x)) l.
Proof.
  induction l as [|x l IH]; simpl; [reflexivity|].
  rewrite trace_bind, trace_bind, IH. unfold ret, trace at 3. simpl.
  now rewrite app_nil_r.
Qed.

Lemma trace_run_round envs order q agents timeout k T :
  trace (run_round envs order q agents timeout k T)
  = flat_map (fun '(key, agent) =>
                trace (query_agent (envs k key) agent (build_prompt k q T)
                         timeout))
      agents.
Proof.
  unfold run_round. rewrite trace_bind, trace_submit_all.
  unfold ret, trace at 2. simpl. rewrite app_nil_r.
  apply flat_map_ext. now intros [key agent].
Qed.

Lemma trace_run_rounds_app envs order q agents timeout l1 l2 st :
  trace (run_rounds envs order q agents timeout (l1 ++ l2) st)
  = (trace (run_rounds envs order q agents timeout l1 st)
     ++ trace (run_rounds envs order q agents timeout l2
                 (value (run_rounds envs order q agents timeout l1 st))))%list.
Proof.
  revert st. induction l1 as [|r l1 IH]; intros st; simpl; [reflexivity|].
  rewrite !trace_bind, value_bind, IH. now rewrite app_assoc.
Qed.

Lemma trace_rounds envs order q agents timeout n :
  trace (run_rounds envs order q agents timeout (range 1 (Z.of_nat n + 1))
           ([], []))
  = flat_map (round_trace envs order q agents timeout) (seq 1 n).
Proof.
  induction n as [|n IH]; [reflexivity|].
  rewrite range_succ, trace_run_rounds_app, IH, seq_S, flat_map_app.
  f_equal. simpl. rewrite trace_bind. unfold ret, trace at 2. simpl.
  rewrite !app_nil_r. reflexivity.
Qed.

(** The invocations of a consultation are those of its rounds, in order. *)
Lemma trace_run_consultation envs order q agents selected n_rounds timeout :
  trace (run_consultation envs order q agents selected n_rounds timeout)
  = match filter_available (filter_selected agents selected) with
    | [] => []
    | ps => flat_map (round_trace envs order q ps timeout)
              (seq 1 (Z.to_nat n_rounds))
    end.
Proof.
  unfold run_consultation.
  destruct (filter_available (filter_selected agents selected)) as [|p ps];
    [reflexivity|].
  rewrite trace_bind. unfold ret, trace at 2. simpl. rewrite app_nil_r.
  now rewrite range_to_nat, trace_rounds.
Qed.

Lemma filter_available_In agents key agent :
  In (key, agent) (filter_available agents) ->
  In (key, agent) agents /\ available agent = true.
Proof. unfold filter_available. now rewrite filter_In. Qed.

(** Every invocation of a consultation is made in one of the rounds
    [1..n_rounds], for a participant (a selected agent that is available), on
    the prompt of that round and with the configured timeout: a spawn of the
    participant's command followed by the prompt, or a POST of the prompt. *)
Theorem invocations_are_for_participants
    envs order q agents selected n_rounds timeout ev :
  In ev (trace (run_consultation envs order q agents selected n_rounds
                  timeout)) ->
  exists k key agent,
    (1 <= k <= Z.to_nat n_rounds)%nat
    /\ In (key, agent) (filter_selected agents selected)
    /\ available agent = true
    /\ (ev = Spawn
               (command agent
                ++ [prompt_of_round envs order q
                      (filter_available (filter_selected agents selected))
                      timeout k])%list
               (Some timeout)
        \/ ev = HttpPost "https://api.perplexity.ai/v1/responses"
                  (prompt_of_round envs order q
                     (filter_available (filter_selected agents selected))
                     timeout k)
                  timeout).
Proof.
  rewrite trace_run_consultation.
  destruct (filter_available (filter_selected agents selected)) as [|p ps] eqn:E;
    [intros []|].
  rewrite <- E. intros Hin.
  apply in_flat_map in Hin. destruct Hin as (k & Hk & Hin).
  apply in_seq in Hk. unfold round_trace in Hin.
  rewrite trace_run_round in Hin. apply in_flat_map in Hin.
  destruct Hin as ([key agent] & Hag & Hin).
  apply filter_available_In in Hag. destruct Hag as [Hag Hav].
  exists k, key, agent. split; [lia|]. split; [exact Hag|].
  split; [exact Hav|].
  rewrite trace_query_agent, Hav in Hin. cbn [negb] in Hin.
  destruct (is_api agent).
  - destruct (_ && _); [|destruct Hin].
    destruct Hin as [<-|[]]. now right.
  - destruct Hin as [<-|[]]. now left.
Qed.

Lemma invocations_are_for_participants_witness :
  exists k key agent,
    (1 <= k <= 2)%nat
    /\ In (key, agent) scenario
    /\ available agent = true
    /\ Spawn ["A"; first_round_prompt "Q"] (Some 120)
       = Spawn (command agent
                ++ [prompt_of_round answering in_submission_order "Q"
                      (filter_available scenario) 120 k])%list
           (Some 120).
Proof.
  destruct (invocations_are_for_participants answering in_submission_order
              "Q" scenario None 2 120
              (Spawn ["A"; first_round_prompt "Q"] (Some 120)))
    as (k & key & agent & Hk & Hin & Hav & [H|H]);
    [now left | | discriminate].
  exists k, key, agent. auto.
Defined.

Lemma length_flat_map_le {A B} (f : A -> list B) (l : list A) (b : nat) :
  (forall x, In x l -> List.length (f x) <= b)%nat ->
  (List.length (flat_map f l) <= List.length l * b)%nat.
Proof.
  induction l as [|x l IH]; intros H; simpl; [lia|].
  rewrite length_app.
  assert (List.length (f x) <= b)%nat by (apply H; now left).
  assert (List.length (flat_map f l) <= List.length l * b)%nat
    by (apply IH; intros y Hy; apply H; now right).
  lia.
Qed.

Lemma length_flat_map_eq {A B} (f : A -> list B) (l : list A) (b : nat) :
  (forall x, In x l -> List.length (f x) = b) ->
  List.length (flat_map f l) = (List.length l * b)%nat.
Proof.
  induction l as [|x l IH]; intros H; simpl; [lia|].
  rewrite length_app, (H x) by now left.
  rewrite IH; [lia|]. intros y Hy. apply H. now right.
Qed.

Lemma length_trace_query env agent prompt timeout :
  (List.length (trace (query_agent env agent prompt timeout)) <= 1)%nat.
Proof.
  rewrite trace_query_agent.
  destruct (negb (available agent)); [simpl; lia|].
  destruct (is_api agent); [|simpl; lia].
  destruct (_ && _); simpl; lia.
Qed.

(** No retries: a consultation makes at most one invocation per participant
    and round, and exactly one when every participant is a command-line
    agent. *)
Theorem invocation_count envs order q agents selected n_rounds timeout :
  (List.length (trace (run_consultation envs order q agents selected n_rounds
                         timeout))
   <= Z.to_nat n_rounds
      * List.length (selected_participants agents selected))%nat
  /\ ((forall key agent,
         In (key, agent) (selected_participants agents selected) ->
         is_api agent = false) ->
      List.length (trace (run_consultation envs order q agents selected
                            n_rounds timeout))
      = (Z.to_nat n_rounds
         * List.length (selected_participants agents selected))%nat).
Proof.
  unfold selected_participants.
  set (ps := filter_available (filter_selected agents selected)).
  rewrite trace_run_consultation. fold ps.
  destruct ps as [|p ps'] eqn:E; [simpl; split; intros; lia|].
  rewrite <- E. clear E p ps'. split.
  - rewrite <- (length_seq (Z.to_nat n_rounds) 1).
    rewrite length_seq at 1.
    apply length_flat_map_le. intros k _. unfold round_trace.
    rewrite trace_run_round.
    rewrite <- (Nat.mul_1_r (List.length ps)).
    apply length_flat_map_le. intros [key agent] _.
    apply length_trace_query.
  - intros Hcli.
    rewrite <- (length_seq (Z.to_nat n_rounds) 1).
    rewrite length_seq at 1.
    apply length_flat_map_eq. intros k _. unfold round_trace.
    rewrite trace_run_round.
    rewrite <- (Nat.mul_1_r (List.length ps)).
    apply length_flat_map_eq. intros [key agent] Hin.
    rewrite trace_query_agent.
    rewrite (Hcli key agent Hin).
    apply filter_available_In in Hin. destruct Hin as [_ Hav].
    now rewrite Hav.
Qed.

Lemma invocation_count_witness :
  List.length (trace (run_consultation answering in_submission_order "Q"
                        scenario None 2 120)) = 2%nat.
Proof.
  apply (proj2 (invocation_count answering in_submission_order "Q" scenario
                  None 2 120)).
  intros key agent [E|[]]. now injection E as <- <-.
Defined.

(** With no round to run ([n_rounds <= 0]) and at least one participant, the
    consultation invokes nothing and still returns a report, with an empty
    list of rounds. *)
Theorem no_rounds_no_invocation envs order q agents selected n_rounds timeout :
  n_rounds <= 0 ->
  filter_available (filter_selected agents selected) <> [] ->
  run_consultation envs order q agents selected n_rounds timeout
  = ([],
     Report
       {| question := q;
          rounds := [];
          participants := keys (filter_available
                                  (filter_selected agents selected));
          unavailable :=
            keys (filter (fun '(_, v) => negb (available v))
                    (filter_selected agents selected)) |}).
Proof.
  intros Hn Hne.
  rewrite (surjective_pairing (run_consultation _ _ _ _ _ _ _)).
  change (fst (run_consultation envs order q agents selected n_rounds timeout))
    with (trace (run_consultation envs order q agents selected n_rounds
                   timeout)).
  change (snd (run_consultation envs order q agents selected n_rounds timeout))
    with (value (run_consultation envs order q agents selected n_rounds
                   timeout)).
  rewrite trace_run_consultation, run_consultation_report by exact Hne.
  replace (Z.to_nat n_rounds) with 0%nat by lia. simpl.
  now destruct (filter_available (filter_selected agents selected)).
Qed.

Lemma no_rounds_no_invocation_witness :
  run_consultation answering in_submission_order "Q" scenario None (-1) 120
  = ([], Report {| question := "Q"; rounds := [];
                   participants := ["A"]; unavailable := ["B"] |}).
Proof.
  apply (no_rounds_no_invocation answering in_submission_order "Q" scenario
           None (-1) 120); [lia | discriminate].
Defined.

Lemma NoDup_map_filter {A B} (g : A -> B) (f : A -> bool) (l : list A) :
  NoDup (map g l) -> NoDup (map g (filter f l)).
Proof.
  induction l as [|x l IH]; simpl; [auto|].
  intros Hnd. inversion Hnd as [|? ? Hnotin Hnd']; subst.
  destruct (f x); simpl; [|auto].
  constructor; [|auto]. intros Hin. apply Hnotin.
  apply in_map_iff in Hin. destruct Hin as (y & E & Hin).
  apply filter_In in Hin. apply in_map_iff. exists y. tauto.
Qed.

Lemma keys_partition (f : string * AIAgent -> bool) (agents : dict AIAgent) :
  Permutation (keys (filter f agents)
               ++ keys (filter (fun x => negb (f x)) agents))%list
              (keys agents).
Proof.
  unfold keys. induction agents as [|x agents IH]; simpl; [constructor|].
  destruct (f x); simpl.
  - now constructor.
  - rewrite <- Permutation_middle. now constructor.
Qed.

(** The participants and the unavailable keys of a report split the selected
    part of the registry: together they are its keys, every unavailable key
    belongs to an agent that is not available, and with distinct keys no key
    is on both lists. *)
Theorem participants_unavailable_partition
    envs order q agents selected n_rounds timeout rep :
  value (run_consultation envs order q agents selected n_rounds timeout)
  = Report rep ->
  Permutation (participants rep ++ unavailable rep)%list
              (keys (filter_selected agents selected))
  /\ (forall k, In k (unavailable rep) ->
                exists a, In (k, a) agents /\ available a = false)
  /\ (NoDup (keys agents) ->
      forall k, In k (participants rep) -> ~ In k (unavailable rep)).
Proof.
  intros Hrep.
  destruct (filter_available (filter_selected agents selected)) as [|p ps] eqn:E.
  { rewrite run_consultation_refused in Hrep by exact E. discriminate. }
  rewrite run_consultation_report in Hrep by (rewrite E; discriminate).
  injection Hrep as <-. cbn [participants unavailable].
  assert (Hperm :
            Permutation
              (keys (filter_available (filter_selected agents selected))
               ++ keys (filter (fun '(_, v) => negb (available v))
                          (filter_selected agents selected)))%list
              (keys (filter_selected agents selected))).
  { unfold filter_available.
    erewrite (filter_ext (fun '(_, v) => negb (available v)));
      [apply (keys_partition (fun '(_, v) => available v))|].
    now intros [k v]. }
  assert (Hsub : forall k a, In (k, a) (filter_selected agents selected) ->
                             In (k, a) agents).
  { intros k a. unfold filter_selected.
    destruct selected as [[|s sel]|]; auto. intros H.
    now apply filter_In in H. }
  split; [exact Hperm|]. split.
  - intros k Hin. unfold keys in Hin. apply in_map_iff in Hin.
    destruct Hin as ([k' a] & Ek & Hin). simpl in Ek. subst k'.
    apply filter_In in Hin. destruct Hin as [Hin Hav].
    exists a. split; [now apply Hsub|]. now apply negb_true_iff.
  - intros Hnd k Hp Hu.
    assert (Hnd' : NoDup (keys (filter_selected agents selected))).
    { unfold filter_selected. destruct selected as [[|s sel]|]; auto.
      now apply NoDup_map_filter. }
    apply (Permutation_NoDup (Permutation_sym Hperm)) in Hnd'.
    revert Hnd' Hp Hu. clear.
    generalize (keys (filter_available (filter_selected agents selected))).
    intros l. induction l as [|x l IH]; simpl; [tauto|].
    intros Hnd [->|Hp] Hu.
    + inversion Hnd as [|? ? Hnotin _]; subst. apply Hnotin.
      apply in_or_app. now right.
    + inversion Hnd; subst. auto.
Qed.

Lemma participants_unavailable_partition_witness :
  exists rep,
    value (run_consultation answering in_submission_order "Q" scenario None
             2 120) = Report rep
    /\ Permutation (participants rep ++ unavailable rep)%list ["A"; "B"].
Proof.
  eexists. split; [reflexivity|].
  apply (participants_unavailable_partition answering in_submission_order "Q"
           scenario None 2 120 _ eq_refl).
Defined.

(* ------------------------------------------------------------------------- *)
(** * Further properties: what a round records *)

Lemma same_outcome_refl st : same_outcome st st.
Proof. split; [reflexivity | intros n; auto]. Qed.

Lemma same_outcome_trans st1 st2 st3 :
  same_outcome st1 st2 -> same_outcome st2 st3 -> same_outcome st1 st3.
Proof.
  intros [R1 H1] [R2 H2]. split; [congruence|]. intros n.
  destruct (H1 n) as (A1 & B1 & C1), (H2 n) as (A2 & B2 & C2).
  repeat split; congruence.
Qed.

Lemma record_reply_same st st' r :
  same_outcome st st' -> same_outcome (record_reply st r) (record_reply st' r).
Proof.
  destruct st as [rr T], st' as [rr' T'], r as [[a t] e].
  intros [R H]. simpl in R. unfold record_reply.
  destruct (error_set e); (split; [exact R|]); intros n;
    destruct (H n) as (A & B & C); simpl in *;
    rewrite ?get_set; destruct (String.eqb n a); auto.
Qed.

Lemma fold_same rs st st' :
  same_outcome st st' ->
  same_outcome (fold_left record_reply rs st) (fold_left record_reply rs st').
Proof.
  revert st st'. induction rs as [|r rs IH]; intros st st' H; simpl; [exact H|].
  now apply IH, record_reply_same.
Qed.

Lemma get_set_swap {V} n a b (u v : V) d :
  a <> b -> get n (set a u (set b v d)) = get n (set b v (set a u d)).
Proof.
  intros Hab. rewrite !get_set.
  destruct (String.eqb_spec n a) as [Ha|Ha], (String.eqb_spec n b) as [Hb|Hb];
    congruence.
Qed.

Lemma record_reply_swap st x y :
  reply_name x <> reply_name y ->
  same_outcome (record_reply (record_reply st x) y)
               (record_reply (record_reply st y) x).
Proof.
  destruct st as [rr T], x as [[a t] e], y as [[b u] f].
  unfold reply_name. simpl. intros Hab. unfold record_reply.
  destruct (error_set e), (error_set f); (split; [reflexivity|]);
    intros n; simpl; repeat split; auto using get_set_swap.
Qed.

(** Replies with pairwise distinct names can be folded in any order. *)
Lemma fold_permutation rs rs' :
  Permutation rs rs' ->
  NoDup (map reply_name rs) ->
  forall st, same_outcome (fold_left record_reply rs st)
                          (fold_left record_reply rs' st).
Proof.
  induction 1 as [|x l l' Hp IH|x y l|l l' l'' Hp1 IH1 Hp2 IH2]; intros Hnd st.
  - apply same_outcome_refl.
  - simpl. apply IH. now inversion Hnd.
  - simpl. apply fold_same, record_reply_swap.
    inversion Hnd as [|? ? Hnotin _]; subst. intros E. apply Hnotin.
    left. now symmetry.
  - eapply same_outcome_trans; [now apply IH1|]. apply IH2.
    eapply Permutation_NoDup; [|exact Hnd]. now apply Permutation_map.
Qed.

(** When the participants' names are pairwise distinct, what a round records
    for each name (response, error, transcript entry) does not depend on the
    order in which the calls complete. *)
Theorem round_outcome_order_independent
    envs order1 order2 q agents timeout k T :
  NoDup (names agents) ->
  same_outcome (value (run_round envs order1 q agents timeout k T))
               (value (run_round envs order2 q agents timeout k T)).
Proof.
  intros Hnd. rewrite !value_run_round.
  apply fold_permutation.
  - unfold replies_of_round.
    rewrite as_completed_perm. symmetry. apply as_completed_perm.
  - eapply Permutation_NoDup; [symmetry; apply replies_names | exact Hnd].
Qed.

Lemma round_outcome_order_independent_witness :
  same_outcome
    (value (run_round (fun _ _ => healthy) in_submission_order "Q"
              [("claude", cli "Claude" true); ("gemini", cli "Gemini" true)]
              120 1 []))
    (value (run_round (fun _ _ => healthy) last_first "Q"
              [("claude", cli "Claude" true); ("gemini", cli "Gemini" true)]
              120 1 [])).
Proof.
  apply (round_outcome_order_independent (fun _ _ => healthy)
           in_submission_order last_first "Q"
           [("claude", cli "Claude" true); ("gemini", cli "Gemini" true)]
           120 1 []).
  simpl. repeat constructor; simpl; intuition discriminate.
Defined.

Lemma fold_untouched rs n :
  ~ In n (map reply_name rs) ->
  forall st,
    get n (responses (fst (fold_left record_reply rs st)))
    = get n (responses (fst st))
    /\ get n (errors (fst (fold_left record_reply rs st)))
       = get n (errors (fst st))
    /\ get n (snd (fold_left record_reply rs st)) = get n (snd st).
Proof.
  induction rs as [|[[a t] e] rs IH]; intros Hn st; simpl; [auto|].
  simpl in Hn. unfold reply_name in Hn at 1. simpl in Hn.
  assert (Hna : n <> a) by (intros ->; tauto).
  destruct (IH (fun H => Hn (or_intror H)) (record_reply st (a, t, e)))
    as (A & B & C).
  rewrite A, B, C. destruct st as [rr T]. unfold record_reply.
  destruct (error_set e); simpl; rewrite ?get_set_other by exact Hna; auto.
Qed.

Lemma fold_records rs r :
  NoDup (map reply_name rs) ->
  In r rs ->
  forall st,
    get (reply_name r) (responses (fst st)) = None ->
    get (reply_name r) (errors (fst st)) = None ->
    match error_set (snd r) with
    | None =>
        get (reply_name r) (responses (fst (fold_left record_reply rs st)))
        = Some (snd (fst r))
        /\ get (reply_name r) (errors (fst (fold_left record_reply rs st)))
           = None
        /\ get (reply_name r) (snd (fold_left record_reply rs st))
           = Some (snd (fst r))
    | Some msg =>
        get (reply_name r) (errors (fst (fold_left record_reply rs st)))
        = Some msg
        /\ get (reply_name r) (responses (fst (fold_left record_reply rs st)))
           = None
        /\ get (reply_name r) (snd (fold_left record_reply rs st))
           = get (reply_name r) (snd st)
    end.
Proof.
  induction rs as [|x rs IH]; intros Hnd Hin st Hr He; [contradiction|].
  inversion Hnd as [|? ? Hnotin Hnd']; subst. simpl.
  destruct Hin as [->|Hin].
  - destruct (fold_untouched rs (reply_name r) Hnotin (record_reply st r))
      as (A & B & C).
    rewrite A, B, C. destruct st as [rr T], r as [[a t] e].
    unfold reply_name in *. simpl in *. unfold record_reply.
    destruct (error_set e); simpl; rewrite ?get_set_same; auto.
  - assert (Hne : ~ In (reply_name r) (map reply_name [x])).
    { intros [E|[]]. apply Hnotin. rewrite E. now apply in_map. }
    destruct (fold_untouched [x] (reply_name r) Hne st) as (A & B & C).
    simpl in A, B, C.
    assert (H := IH Hnd' Hin (record_reply st x)).
    rewrite A, B, C in H. specialize (H Hr He).
    exact H.
Qed.

(** With pairwise distinct names, the outcome of every participant is recorded
    in the round's result under its name: an error-free reply under
    [responses] and in the transcript, with its text; a reply with a non-empty
    error under [errors], with the transcript entry of that name left as it
    was. *)
Theorem every_participant_recorded
    envs order q agents timeout k key agent :
  NoDup (names agents) ->
  In (key, agent) agents ->
  match error_set
          (snd (reply_in_round envs order q agents timeout (S k) key agent))
  with
  | None =>
      get (name agent)
        (responses (result_of_round envs order q agents timeout (S k)))
      = Some (snd (fst (reply_in_round envs order q agents timeout (S k)
                          key agent)))
      /\ get (name agent)
           (errors (result_of_round envs order q agents timeout (S k)))
         = None
      /\ get (name agent) (transcript_after envs order q agents timeout (S k))
         = Some (snd (fst (reply_in_round envs order q agents timeout (S k)
                             key agent)))
  | Some msg =>
      get (name agent)
        (errors (result_of_round envs order q agents timeout (S k)))
      = Some msg
      /\ get (name agent)
           (responses (result_of_round envs order q agents timeout (S k)))
         = None
      /\ get (name agent) (transcript_after envs order q agents timeout (S k))
         = get (name agent)
             (transcript_before envs order q agents timeout (S k))
  end.
Proof.
  intros Hnd Hin. unfold reply_in_round.
  set (reply :=
         value (query_agent (envs (Z.of_nat (S k)) key) agent
                  (prompt_of_round envs order q agents timeout (S k))
                  timeout)).
  rewrite result_of_round_succ, transcript_after_succ.
  rewrite <- (query_agent_name (envs (Z.of_nat (S k)) key) agent
                (prompt_of_round envs order q agents timeout (S k)) timeout).
  fold reply.
  apply (fold_records
           (replies_of_round envs order q agents timeout (Z.of_nat (S k))
              (transcript_after envs order q agents timeout k))
           reply).
  - eapply Permutation_NoDup; [symmetry; apply replies_names | exact Hnd].
  - unfold replies_of_round.
    eapply Permutation_in; [symmetry; apply as_completed_perm|].
    apply (in_map
             (fun '(key, agent) =>
                value (query_agent (envs (Z.of_nat (S k)) key) agent
                         (build_prompt (Z.of_nat (S k)) q
                            (transcript_after envs order q agents timeout k))
                         timeout))
             agents (key, agent) Hin).
  - reflexivity.
  - reflexivity.
Qed.

Lemma every_participant_recorded_witness :
  get "A" (responses (result_of_round answering last_first "Q" scenario 120 2))
  = Some "a2"
  /\ get "B" (errors (result_of_round answering last_first "Q" scenario 120 2))
     = Some "B CLI not available".
Proof.
  split.
  - apply (every_participant_recorded answering last_first "Q" scenario 120 1
             "A" (cli "A" true)).
    + simpl. repeat constructor; simpl; intuition discriminate.
    + now left.
  - apply (every_participant_recorded answering last_first "Q" scenario 120 1
             "B" (cli "B" false)).
    + simpl. repeat constructor; simpl; intuition discriminate.
    + right. now left.
Defined.

Lemma record_reply_errors rs rr T n msg :
  get n (errors (fst (fold_left record_reply rs (rr, T)))) = Some msg ->
  get n (errors rr) = Some msg
  \/ exists t e, In (n, t, e) rs /\ error_set e = Some msg.
Proof.
  revert rr T. induction rs as [|[[a u] e] rs IH]; intros rr T; simpl;
    [auto|].
  destruct (error_set e) eqn:He; intros H; apply IH in H; simpl in H.
  - destruct H as [H|(t' & e' & Hin & He')].
    + rewrite get_set in H. destruct (String.eqb_spec n a) as [->|Hne].
      * injection H as ->. right. exists u, e. auto.
      * now left.
    + right. exists t', e'. auto.
  - destruct H as [H|(t' & e' & Hin & He')]; [now left|].
    right. exists t', e'. auto.
Qed.

(** An error recorded in a round is never the empty string: it is the
    non-empty error that [query_agent] returned, with empty text, for a
    participant of that name on that round's prompt. *)
Theorem recorded_error_origin envs order q agents timeout k n msg :
  get n (errors (result_of_round envs order q agents timeout (S k)))
  = Some msg ->
  msg <> ""
  /\ exists key agent,
       In (key, agent) agents
       /\ name agent = n
       /\ value (query_agent (envs (Z.of_nat (S k)) key) agent
                   (prompt_of_round envs order q agents timeout (S k))
                   timeout)
          = (n, "", Some msg).
Proof.
  rewrite result_of_round_succ. intros H.
  apply record_reply_errors in H.
  destruct H as [H|(t & e & Hin & He)]; [discriminate|].
  apply error_set_Some in He. destruct He as [-> Hne].
  split; [exact Hne|].
  apply replies_origin in Hin. destruct Hin as (key & agent & Hin & Hr).
  exists key, agent. split; [exact Hin|].
  assert (Hname := query_agent_name (envs (Z.of_nat (S k)) key) agent
              (prompt_of_round envs order q agents timeout (S k)) timeout).
  assert (Htext := error_reply_has_no_text (envs (Z.of_nat (S k)) key) agent
              (prompt_of_round envs order q agents timeout (S k)) timeout).
  unfold reply_name in Hname.
  unfold prompt_of_round in *.
  change (transcript_before envs order q agents timeout (S k))
    with (transcript_after envs order q agents timeout k) in *.
  rewrite <- Hr in *. simpl in *.
  split; [auto|]. destruct Htext as [Ht|Ht]; [discriminate | now rewrite Ht].
Qed.

Lemma recorded_error_origin_witness :
  exists key agent,
    In (key, agent) scenario
    /\ name agent = "B"
    /\ value (query_agent (answering 1 key) agent
                (prompt_of_round answering in_submission_order "Q" scenario
                   120 1) 120)
       = ("B", "", Some "B CLI not available").
Proof.
  apply (recorded_error_origin answering in_submission_order "Q" scenario 120
           0 "B" "B CLI not available").
  reflexivity.
Defined.

(** The transcript only ever holds names of participants. *)
Theorem transcript_names_are_participants envs order q agents timeout k n :
  mem n (transcript_after envs order q agents timeout k) = true ->
  In n (names agents).
Proof.
  intros H. apply mem_get in H.
  destruct (get n (transcript_after envs order q agents timeout k)) as [t|] eqn:E;
    [|congruence].
  rewrite transcript_latest in E.
  apply latest_success_origin in E. destruct E as (j & Hj & Hget).
  destruct j as [|j]; [lia|].
  apply (round_keys_In envs order q agents timeout j n).
  apply in_or_app. left. apply get_None_keys_neg. congruence.
Qed.

Lemma transcript_names_are_participants_witness :
  In "A" (names scenario).
Proof.
  apply (transcript_names_are_participants answering in_submission_order "Q"
           scenario 120 2 "A").
  reflexivity.
Defined.

(** For a registry built by the script, whatever the selection, every round
    of a consultation holds exactly one entry per participant: the keys of
    its responses and errors together are the participants' display names,
    each once. *)
Theorem registry_round_one_entry_each
    startup registry envs order q selected timeout k :
  get_agents startup = Return registry ->
  Permutation
    (keys (responses (result_of_round envs order q
                        (selected_participants registry selected) timeout
                        (S k)))
     ++ keys (errors (result_of_round envs order q
                        (selected_participants registry selected) timeout
                        (S k))))%list
    (names (selected_participants registry selected))
  /\ NoDup
       (keys (responses (result_of_round envs order q
                           (selected_participants registry selected) timeout
                           (S k)))
        ++ keys (errors (result_of_round envs order q
                           (selected_participants registry selected) timeout
                           (S k))))%list.
Proof.
  intros Hreg. set (ps := selected_participants registry selected).
  assert (Hnd := registry_names_NoDup startup registry Hreg).
  assert (Hps : NoDup (names ps)).
  { unfold ps, selected_participants, filter_available.
    apply NoDup_names_filter.
    unfold filter_selected. destruct selected as [[|s sel]|]; auto.
    now apply NoDup_names_filter. }
  assert (Hp := round_keys_perm envs order q ps timeout k Hps).
  split; [exact Hp|].
  eapply Permutation_NoDup; [symmetry; exact Hp | exact Hps].
Qed.

Lemma registry_round_one_entry_each_witness :
  exists registry,
    get_agents healthy = Return registry
    /\ Permutation
         (keys (responses (result_of_round (fun _ _ => healthy) last_first "Q"
                             (selected_participants registry
                                (Some ["codex"; "claude"])) 120 1))
          ++ keys (errors (result_of_round (fun _ _ => healthy) last_first "Q"
                             (selected_participants registry
                                (Some ["codex"; "claude"])) 120 1)))%list
         ["Claude"; "Codex"].
Proof.
  eexists. split; [reflexivity|].
  apply (registry_round_one_entry_each healthy _ (fun _ _ => healthy)
           last_first "Q" (Some ["codex"; "claude"]) 120 0 eq_refl).
Defined.

(* ------------------------------------------------------------------------- *)
(** * Further properties: the command line *)

(** With [--list-agents] the program prints the heading and one status line
    per registry entry, each showing what the probe found at start-up; it
    queries no agent and needs no question. *)
Theorem listing_reports_probes startup envs order args c g x :
  arg_list_agents args = true ->
  check_cli_available startup "claude" = Return c ->
  check_cli_available startup "gemini" = Return g ->
  check_cli_available startup "codex" = Return x ->
  main startup envs order args
  = ([],
     [Line "Available AI Agents:";
      Line ("  claude: Claude ["
            ++ (if c then "CLI available" else "CLI not found") ++ "]");
      Line ("  gemini: Gemini ["
            ++ (if g then "CLI available" else "CLI not found") ++ "]");
      Line ("  codex: Codex ["
            ++ (if x then "CLI available" else "CLI not found") ++ "]");
      Line ("  perplexity: Perplexity ["
            ++ (if check_perplexity_available startup
                then "API configured" else "API key not set") ++ "]")],
     Finished).
Proof.
  intros Hl Hc Hg Hx. unfold main, get_agents. rewrite Hc, Hg, Hx, Hl.
  reflexivity.
Qed.

Lemma listing_reports_probes_witness :
  main bare (fun _ _ => healthy) in_submission_order
    {| arg_question := None; arg_agents := None; arg_rounds := 2;
       arg_timeout := 120; arg_format := "text"; arg_list_agents := true |}
  = ([],
     [Line "Available AI Agents:";
      Line "  claude: Claude [CLI not found]";
      Line "  gemini: Gemini [CLI not found]";
      Line "  codex: Codex [CLI not found]";
      Line "  perplexity: Perplexity [API key not set]"],
     Finished).
Proof.
  apply (listing_reports_probes bare (fun _ _ => healthy) in_submission_order
           _ false false false);
    reflexivity.
Defined.

(** The arguments are parsed first and the registry is built next, before
    the parsed arguments are acted on.  So on a system where the locator
    program cannot be started for the first probe, the script ends with that
    exception whatever the parsed arguments are, a mere listing included,
    having printed and invoked nothing; but when the parser itself ends the
    program ([--help], an invalid argument) no probe is reached and the
    script ends with the parser's exit status. *)
Theorem missing_locator_aborts_main startup envs order msg :
  subprocess_run startup
    [if String.eqb (platform startup) "win32" then "where" else "which";
     "claude"] None = RunRaised msg ->
  (forall args,
     script (Parsed args) startup envs order
     = ([], [], Ran (Uncaught (OtherError msg))))
  /\ (forall status,
        script (ParseExit status) startup envs order
        = ([], [], ExitedInParsing status)).
Proof.
  intros H. split; [|reflexivity].
  intros args. unfold script, main, get_agents, check_cli_available,
    run_checked.
  now rewrite H.
Qed.

Lemma missing_locator_aborts_main_witness :
  script
    (Parsed {| arg_question := None; arg_agents := None; arg_rounds := 2;
               arg_timeout := 120; arg_format := "text";
               arg_list_agents := true |})
    no_locator (fun _ _ => healthy) in_submission_order
  = ([], [],
     Ran (Uncaught
            (OtherError "[Errno 2] No such file or directory: 'which'")))
  /\ script (ParseExit 0) no_locator (fun _ _ => healthy) in_submission_order
     = ([], [], ExitedInParsing 0).
Proof.
  destruct (missing_locator_aborts_main no_locator (fun _ _ => healthy)
              in_submission_order
              "[Errno 2] No such file or directory: 'which'" eq_refl)
    as [H1 H2].
  split; [apply H1 | apply H2].
Defined.

(** Without [--list-agents], a missing question and an empty question are
    both rejected by the argument parser before any agent is queried. *)
Theorem missing_question_rejected startup envs order args agents :
  get_agents startup = Return agents ->
  arg_list_agents args = false ->
  arg_question args = None \/ arg_question args = Some "" ->
  main startup envs order args = ([], [], ParserError "question is required").
Proof.
  intros Hreg Hl Hq. unfold main. rewrite Hreg, Hl.
  now destruct Hq as [-> | ->].
Qed.

Lemma missing_question_rejected_witness :
  main healthy (fun _ _ => healthy) in_submission_order (text_args (Some ""))
  = ([], [], ParserError "question is required").
Proof.
  apply (missing_question_rejected healthy (fun _ _ => healthy)
           in_submission_order (text_args (Some "")) _ eq_refl eq_refl).
  now right.
Defined.

(** In text mode a run that is refused for want of participants prints the
    closing banner only: the error message "No AI agents available" is never
    shown, and nothing is invoked. *)
Theorem refused_run_prints_banner_only startup envs order args agents c q :
  get_agents startup = Return agents ->
  arg_list_agents args = false ->
  arg_question args = Some (String c q) ->
  arg_format args = "text" ->
  filter_available (filter_selected agents (arg_agents args)) = [] ->
  main startup envs order args
  = ([],
     [Line (nl ++ rule); Line "CONSULTATION COMPLETE"; Line rule],
     Finished).
Proof.
  intros Hreg Hl Hq Hf Hno. unfold main. rewrite Hreg, Hl, Hq, Hf.
  rewrite run_consultation_refused by exact Hno. reflexivity.
Qed.

Lemma refused_run_prints_banner_only_witness :
  main bare (fun _ _ => healthy) in_submission_order (text_args (Some "Q"))
  = ([],
     [Line (nl ++ rule); Line "CONSULTATION COMPLETE"; Line rule],
     Finished).
Proof.
  apply (refused_run_prints_banner_only bare (fun _ _ => healthy)
           in_submission_order (text_args (Some "Q")) _ "Q"%char ""
           eq_refl eq_refl eq_refl eq_refl eq_refl).
Defined.

(** In JSON mode the program prints once, the rendering of what the
    consultation returned (the error dictionary included), with no progress
    lines, and its invocations are those of the consultation. *)
Theorem json_mode_prints_result_only startup envs order args agents c q :
  get_agents startup = Return agents ->
  arg_list_agents args = false ->
  arg_question args = Some (String c q) ->
  arg_format args = "json" ->
  main startup envs order args
  = (trace (run_consultation envs order (String c q) agents (arg_agents args)
              (arg_rounds args) (arg_timeout args)),
     [JsonDump
        (value (run_consultation envs order (String c q) agents
                  (arg_agents args) (arg_rounds args) (arg_timeout args)))],
     Finished).
Proof.
  intros Hreg Hl Hq Hf. unfold main. rewrite Hreg, Hl, Hq, Hf.
  destruct (run_consultation envs order (String c q) agents (arg_agents args)
              (arg_rounds args) (arg_timeout args)) as [tr [msg|rep]];
    reflexivity.
Qed.

Lemma json_mode_prints_result_only_witness :
  main bare (fun _ _ => healthy) in_submission_order
    {| arg_question := Some "Q"; arg_agents := None; arg_rounds := 2;
       arg_timeout := 120; arg_format := "json"; arg_list_agents := false |}
  = ([], [JsonDump (NoAgents "No AI agents available")], Finished).
Proof.
  apply (json_mode_prints_result_only bare (fun _ _ => healthy)
           in_submission_order
           {| arg_question := Some "Q"; arg_agents := None; arg_rounds := 2;
              arg_timeout := 120; arg_format := "json";
              arg_list_agents := false |}
           _ "Q"%char "" eq_refl eq_refl eq_refl eq_refl).
Defined.

Lemma Consecutive_app_l {A} (a b : A) (p l : list A) :
  Consecutive a b l -> Consecutive a b (p ++ l).
Proof.
  intros (pre & post & ->). exists (p ++ pre)%list, post.
  now rewrite app_assoc.
Qed.

Lemma Consecutive_app_r {A} (a b : A) (l s : list A) :
  Consecutive a b l -> Consecutive a b (l ++ s).
Proof.
  intros (pre & post & ->). exists pre, (post ++ s)%list.
  now rewrite <- app_assoc.
Qed.

Lemma Consecutive_map {A B} (f : A -> B) (a b : A) (l : list A) :
  Consecutive a b l -> Consecutive (f a) (f b) (map f l).
Proof.
  intros (pre & post & ->). exists (map f pre), (map f post).
  now rewrite map_app.
Qed.

Lemma Consecutive_flat_map {A B} (f : A -> list B) (a b : B) (x : A)
    (l : list A) :
  In x l -> Consecutive a b (f x) -> Consecutive a b (flat_map f l).
Proof.
  intros Hin Hc. apply in_split in Hin. destruct Hin as (l1 & l2 & ->).
  rewrite flat_map_app. apply Consecutive_app_l. simpl.
  now apply Consecutive_app_r.
Qed.

Lemma round_progress_response rr n t :
  In (n, t) (responses rr) ->
  Consecutive (nl ++ "--- " ++ n ++ " ---") t (round_progress rr).
Proof.
  intros H. unfold round_progress.
  apply Consecutive_app_l, Consecutive_app_r.
  apply (Consecutive_flat_map _ _ _ (n, t)); [exact H|].
  now exists [], [].
Qed.

Lemma round_progress_error rr n msg :
  In (n, msg) (errors rr) ->
  Consecutive (nl ++ "--- " ++ n ++ " (ERROR) ---") msg (round_progress rr).
Proof.
  intros H. unfold round_progress.
  apply Consecutive_app_l, Consecutive_app_l.
  apply (Consecutive_flat_map _ _ _ (n, msg)); [exact H|].
  now exists [], [].
Qed.

(** In text mode nothing a round recorded goes unprinted: for every response
    of every round of the report the output has the heading line with the
    agent's name immediately followed by the line with that response, and
    likewise for every error under the heading marked ERROR; a non-empty list
    of unavailable keys is printed on the closing line. *)
Theorem text_mode_prints_every_outcome
    startup envs order args agents c q rep :
  get_agents startup = Return agents ->
  arg_list_agents args = false ->
  arg_question args = Some (String c q) ->
  arg_format args = "text" ->
  value (run_consultation envs order (String c q) agents (arg_agents args)
           (arg_rounds args) (arg_timeout args)) = Report rep ->
  (forall rr n t,
     In rr (rounds rep) -> In (n, t) (responses rr) ->
     Consecutive (Line (nl ++ "--- " ++ n ++ " ---")) (Line t)
       (snd (fst (main startup envs order args))))
  /\ (forall rr n msg,
        In rr (rounds rep) -> In (n, msg) (errors rr) ->
        Consecutive (Line (nl ++ "--- " ++ n ++ " (ERROR) ---")) (Line msg)
          (snd (fst (main startup envs order args))))
  /\ (unavailable rep <> [] ->
      In (Line ("Unavailable agents: " ++ join ", " (unavailable rep)))
         (snd (fst (main startup envs order args)))).
Proof.
  intros Hreg Hl Hq Hf Hrep. unfold main. rewrite Hreg, Hl, Hq, Hf.
  destruct (run_consultation envs order (String c q) agents (arg_agents args)
              (arg_rounds args) (arg_timeout args)) as [tr res].
  unfold value in Hrep. simpl in Hrep. subst res.
  cbn [String.eqb Ascii.eqb Bool.eqb fst snd consultation_output
       unavailable_of].
  assert (Hline : forall rr a b,
            In rr (rounds rep) -> Consecutive a b (round_progress rr) ->
            Consecutive (Line a) (Line b)
              (map Line (flat_map round_progress (rounds rep)))).
  { intros rr a b Hrr Hc. apply Consecutive_map.
    now apply (Consecutive_flat_map _ _ _ rr). }
  split; [|split].
  - intros rr n t Hrr Hin. apply Consecutive_app_r.
    apply (Hline rr); [exact Hrr | now apply round_progress_response].
  - intros rr n msg Hrr Hin. apply Consecutive_app_r.
    apply (Hline rr); [exact Hrr | now apply round_progress_error].
  - intros Hu. apply in_or_app. right. apply in_or_app. right.
    destruct (unavailable rep) as [|u us]; [congruence|]. now left.
Qed.

Lemma text_mode_prints_every_outcome_witness :
  Consecutive (Line (nl ++ "--- Claude (ERROR) ---"))
    (Line "Timeout after 120s")
    (snd (fst (main healthy (fun _ _ => slow_api) in_submission_order
                 (text_args (Some "Q"))))).
Proof.
  destruct (text_mode_prints_every_outcome healthy (fun _ _ => slow_api)
              in_submission_order (text_args (Some "Q")) _ "Q"%char "" _
              eq_refl eq_refl eq_refl eq_refl eq_refl) as (_ & H2 & _).
  apply (H2 _ "Claude" "Timeout after 120s" (or_introl eq_refl)).
  vm_compute. auto.
Defined.

(* ------------------------------------------------------------------------- *)
(** * The transcript, provider by provider *)



